(** * CppCmb: the parser combinators of [cppcmb.hpp], embedded in Rocq

    The header defines every combinator as a function from a token iterator
    to [std::optional<std::pair<Data, TokenIterator>>].  The embedding keeps
    that shape: a combinator is a function from a cursor to an optional pair,
    run inside a small monad that records the two ways a C++ call can end
    without a value (undefined behaviour, and a [while (true)] loop that is
    still running when the budget of the model is spent). *)

From Stdlib Require Import List Arith Lia.
Import ListNotations.

Set Implicit Arguments.
Set Warnings "-register-all".

(** ** How a call ends *)

Inductive outcome (A : Type) : Type :=
| Returns (a : A)   (* the call returns [a] *)
| Undefined         (* the call leaves defined behaviour, e.g. [*it] at the end *)
| OutOfFuel.        (* the loop is still running after the allotted iterations *)

Arguments Returns {A} a.
Arguments Undefined {A}.
Arguments OutOfFuel {A}.

Definition bind {A B : Type} (m : outcome A) (k : A -> outcome B) : outcome B :=
  match m with
  | Returns a => k a
  | Undefined => Undefined
  | OutOfFuel => OutOfFuel
  end.

Notation "x <- m ;; k" := (bind m (fun x => k))
  (at level 61, m at next level, right associativity).

(** [detail::expected<T>]: the optional of a mapping that can fail, kept apart
    from [std::optional] (the header derives it privately from it). *)
Inductive expected (T : Type) : Type :=
| HasValue (v : T)
| NoValue.

Arguments HasValue {T} v.
Arguments NoValue {T}.

(** [make_expected(val)] *)
Definition make_expected {T : Type} (val : T) : expected T := HasValue val.

Section Model.

Variable Token : Type.
Variable Cursor : Type.          (* the template parameter TokenIterator *)

(** ** Data

    The C++ types that combinator data can take.  The constructor of a value
    stands for its static type: [as_tuple_impl] and [unwrap_tuple_impl] are
    selected by that type. *)
Inductive value : Type :=
| Tok (t : Token)                (* a token, or any datum that is no tuple *)
| Tuple (ts : list value)        (* std::tuple<Ts...> *)
| Opt (o : option value)         (* std::optional<T> *)
| Coll (es : list value).        (* Collection<element_type> *)

(** [as_tuple(arg)]: [arg] itself when it is a tuple, [std::make_tuple(arg)]
    otherwise.  The tuple is given by its components. *)
Definition as_tuple (arg : value) : list value :=
  match arg with
  | Tuple ts => ts
  | _ => [arg]
  end.

(** [unwrap_tuple(arg)]: [std::get<0>(arg)] for a [std::tuple<T>], [arg]
    otherwise. *)
Definition unwrap_tuple (arg : value) : value :=
  match arg with
  | Tuple [t] => t
  | _ => arg
  end.

(** [std::tuple_cat(a, b)] *)
Definition tuple_cat (a b : list value) : value := Tuple (a ++ b).

(** [std::optional<std::pair<Data, TokenIterator>>] *)
Definition result_type : Type := option (value * Cursor).

(** [make_result(data, it)] *)
Definition make_result (data : value) (it : Cursor) : result_type := Some (data, it).

(** A combinator type: [Combinator()(it)]. *)
Definition combinator : Type := Cursor -> outcome result_type.

(** [fn_wrap<Callable, TokenIterator>]: [operator()] calls [Callable]. *)
Definition fn_wrap (Callable : Cursor -> outcome result_type) : combinator :=
  fun it => Callable it.

(** ** Primitive combinators *)

(** [cmb_succ_fn] *)
Definition cmb_succ_fn (it : Cursor) : outcome result_type :=
  Returns (make_result (Tuple []) it).

Definition cmb_succ : combinator := fn_wrap cmb_succ_fn.

Section One.
(** The type of [*it]. *)
Variable Item : Type.
(** [*it] has a value only where the iterator is dereferenceable. *)
Variable deref : Cursor -> option Item.
(** [std::next(it)] *)
Variable next : Cursor -> Cursor.
(** The token as data: a token whose type is a [std::tuple] is the [Tuple] of
    its components, so that [as_tuple] and [unwrap_tuple] treat it as the
    header does; a token of any other type is a [Tok]. *)
Variable token_data : Item -> value.

(** [cmb_one_fn]: no test against the end of the input. *)
Definition cmb_one_fn (it : Cursor) : outcome result_type :=
  match deref it with
  | Some tok => Returns (make_result (token_data tok) (next it))
  | None => Undefined
  end.

Definition cmb_one : combinator := fn_wrap cmb_one_fn.
End One.

(** ** Composite combinators *)

(** [cmb_opt_fn] *)
Definition cmb_opt_fn (Combinator : combinator) (it : Cursor) : outcome result_type :=
  res <- Combinator it ;;
  match res with
  | None => Returns (make_result (Opt None) it)
  | Some (data, pos) => Returns (make_result (Opt (Some data)) pos)
  end.

Definition cmb_opt (Combinator : combinator) : combinator :=
  fn_wrap (cmb_opt_fn Combinator).

(** [cmb_seq_fn]: the two overloads, by recursion on the template pack. *)
Fixpoint cmb_seq_fn (Combinators : list combinator) (it : Cursor)
  : outcome result_type :=
  match Combinators with
  | [] => Returns (make_result (Tuple []) it)
  | First :: Rest =>
      first <- First it ;;
      match first with
      | None => Returns None
      | Some (fdata, fpos) =>
          rest <- cmb_seq_fn Rest fpos ;;
          match rest with
          | None => Returns None
          | Some (rdata, rpos) =>
              Returns (make_result
                         (unwrap_tuple (tuple_cat (as_tuple fdata) (as_tuple rdata)))
                         rpos)
          end
      end
  end.

Definition cmb_seq (Combinators : list combinator) : combinator :=
  fn_wrap (cmb_seq_fn Combinators).

(** [cmb_alt_fn]: the two overloads, by recursion on the template pack. *)
Fixpoint cmb_alt_fn (Combinators : list combinator) (it : Cursor)
  : outcome result_type :=
  match Combinators with
  | [] => Returns None
  | First :: Rest =>
      first <- First it ;;
      match first with
      | Some _ => Returns first
      | None => cmb_alt_fn Rest it
      end
  end.

(** [cmb_alt] takes at least one alternative. *)
Definition cmb_alt (First : combinator) (Rest : list combinator) : combinator :=
  fn_wrap (cmb_alt_fn (First :: Rest)).

(** The [while (true)] loop of [cmb_rep_fn]; [result] is the collection
    written through [std::back_inserter]. *)
Fixpoint rep_loop (fuel : nat) (Combinator : combinator)
         (result : list value) (it : Cursor) : outcome result_type :=
  match fuel with
  | O => OutOfFuel
  | S fuel' =>
      res <- Combinator it ;;
      match res with
      | None => Returns (make_result (Coll result) it)
      | Some (data, pos) => rep_loop fuel' Combinator (result ++ [data]) pos
      end
  end.

(** [cmb_rep_fn] *)
Definition cmb_rep_fn (fuel : nat) (Combinator : combinator) (it : Cursor)
  : outcome result_type :=
  rep_loop fuel Combinator [] it.

Definition cmb_rep (fuel : nat) (Combinator : combinator) : combinator :=
  fn_wrap (cmb_rep_fn fuel Combinator).

(** [cmb_rep1_fn]; [res->first.empty()] reads through the optional. *)
Definition cmb_rep1_fn (fuel : nat) (Combinator : combinator) (it : Cursor)
  : outcome result_type :=
  res <- cmb_rep_fn fuel Combinator it ;;
  match res with
  | None => Undefined
  | Some (Coll [], _) => Returns None
  | Some _ => Returns res
  end.

Definition cmb_rep1 (fuel : nat) (Combinator : combinator) : combinator :=
  fn_wrap (cmb_rep1_fn fuel Combinator).

(** ** Transformations *)

(** A mapper is called through [std::apply] on the components of
    [as_tuple(res->first)]. *)
Definition mapper : Type := list value -> outcome value.
Definition failable_mapper : Type := list value -> outcome (expected value).

(** [cmb_map_impl<RetTy, ...>::pass], the primary template. *)
Definition cmb_map_impl (Combinator : combinator) (Mapper : mapper)
           (it : Cursor) : outcome result_type :=
  res <- Combinator it ;;
  match res with
  | Some (data, pos) =>
      transformed <- Mapper (as_tuple data) ;;
      Returns (make_result (unwrap_tuple transformed) pos)
  | None => Returns None
  end.

(** [cmb_map_impl<expected<T>, ...>::pass], the specialisation chosen when
    the mapper returns an [expected<T>]. *)
Definition cmb_map_impl_expected (Combinator : combinator)
           (Mapper : failable_mapper) (it : Cursor) : outcome result_type :=
  res <- Combinator it ;;
  match res with
  | Some (data, pos) =>
      transformed <- Mapper (as_tuple data) ;;
      match transformed with
      | HasValue v => Returns (make_result (unwrap_tuple v) pos)
      | NoValue => Returns None
      end
  | None => Returns None
  end.

(** The two kinds of mapper, told apart by the declared return type. *)
Inductive any_mapper : Type :=
| Plain (m : mapper)              (* returns a value *)
| Failable (m : failable_mapper). (* returns an [expected<T>] *)

(** [cmb_map_fn]: [cmb_map_impl] is picked by [transform_result]. *)
Definition cmb_map_fn (Combinator : combinator) (Mapper : any_mapper)
           (it : Cursor) : outcome result_type :=
  match Mapper with
  | Plain m => cmb_map_impl Combinator m it
  | Failable m => cmb_map_impl_expected Combinator m it
  end.

Definition cmb_map (Combinator : combinator) (Mapper : any_mapper) : combinator :=
  fn_wrap (cmb_map_fn Combinator Mapper).

(** [filter_impl<Predicate>::operator()] *)
Definition filter_impl (Predicate : list value -> bool) : failable_mapper :=
  fun args =>
    if Predicate args
    then Returns (make_expected (unwrap_tuple (Tuple args)))
    else Returns NoValue.

(** [foldl_impl<Folder>::operator()(first, rest)]: the loop runs from
    [std::cbegin(rest)] to [std::cend(rest)]. *)
Fixpoint foldl_impl (Folder : value -> value -> value)
         (first : value) (rest : list value) : value :=
  match rest with
  | [] => first
  | e :: rest' => foldl_impl Folder (Folder first e) rest'
  end.

(** The loop of [foldr_impl], over the elements from [std::crbegin] on. *)
Fixpoint foldr_loop (Folder : value -> value -> value)
         (rit : list value) (first : value) : value :=
  match rit with
  | [] => first
  | e :: rit' => foldr_loop Folder rit' (Folder e first)
  end.

(** [foldr_impl<Folder>::operator()(rest, first)]: the first argument is the
    collection, walked from [std::crbegin(rest)] to [std::crend(rest)]; the
    second argument is the accumulator. *)
Definition foldr_impl (Folder : value -> value -> value)
           (rest : list value) (first : value) : value :=
  foldr_loop Folder (rev rest) first.

(** ** Runs

    The behaviour of the composite combinators, stated on the calls of their
    arguments. *)

(** A run of a sequence in which every combinator succeeds: each one is
    called at the cursor that the one before it returned. *)
Inductive seq_run : list combinator -> Cursor -> list value -> Cursor -> Prop :=
| seq_run_nil : forall c, seq_run [] c [] c
| seq_run_cons : forall X Xs c v c1 vs c',
    X c = Returns (Some (v, c1)) ->
    seq_run Xs c1 vs c' ->
    seq_run (X :: Xs) c (v :: vs) c'.

(** A run of a sequence that meets a failing combinator, the ones before it
    having succeeded. *)
Inductive seq_fail : list combinator -> Cursor -> Prop :=
| seq_fail_here : forall X Xs c,
    X c = Returns None -> seq_fail (X :: Xs) c
| seq_fail_later : forall X Xs c v c1,
    X c = Returns (Some (v, c1)) ->
    seq_fail Xs c1 ->
    seq_fail (X :: Xs) c.

(** Successive successful calls of one combinator, up to its first failure. *)
Inductive rep_run (X : combinator) : Cursor -> list value -> Cursor -> Prop :=
| rep_run_stop : forall c, X c = Returns None -> rep_run X c [] c
| rep_run_step : forall c v c1 vs c',
    X c = Returns (Some (v, c1)) ->
    rep_run X c1 vs c' ->
    rep_run X c (v :: vs) c'.

(** A [std::tuple] with one component that is a tuple again. *)
Definition tuple_of_tuple (v : value) : bool :=
  match v with
  | Tuple [Tuple _] => true
  | _ => false
  end.

(** A combinator whose data is never such a tuple. *)
Definition plain_data (X : combinator) : Prop :=
  forall c v c', X c = Returns (Some (v, c')) -> tuple_of_tuple v = false.

(** The data of a sequence as [cmb_seq_fn] builds it from the data of its
    members, from the last one backwards. *)
Fixpoint seq_data (vs : list value) : value :=
  match vs with
  | [] => Tuple []
  | v :: vs' => unwrap_tuple (tuple_cat (as_tuple v) (as_tuple (seq_data vs')))
  end.

(** The components of all the data, side by side, as one tuple with the
    one-component tuple unwrapped. *)
Definition flat_data (vs : list value) : value :=
  unwrap_tuple (Tuple (concat (map as_tuple vs))).

(** A combinator that returns at every cursor. *)
Definition total (X : combinator) : Prop :=
  forall c, exists r, X c = Returns r.

(** The same result with the data unwrapped. *)
Definition unwrap_result (r : result_type) : result_type :=
  match r with
  | Some (v, c) => Some (unwrap_tuple v, c)
  | None => None
  end.

(** ** The rest of the header *)

(** [make_subscript_map(c, m)], which [fn_wrap::operator[]] calls on itself. *)
Definition make_subscript_map (c : combinator) (m : any_mapper) : combinator :=
  cmb_map c m.

(** [operator~(c)] *)
Definition operator_tilde (c : combinator) : combinator := cmb_opt c.

(** [operator&(l, r)] *)
Definition operator_amp (l r : combinator) : combinator := cmb_seq [l; r].

(** [operator|(l, r)] *)
Definition operator_bar (l r : combinator) : combinator := cmb_alt l [r].

(** ** More runs *)

(** The members of a sequence called one after the other, with the data of
    each kept apart. *)
Fixpoint seq_members (Xs : list combinator) (c : Cursor)
  : outcome (option (list value * Cursor)) :=
  match Xs with
  | [] => Returns (Some ([], c))
  | X :: Xs' =>
      r <- X c ;;
      match r with
      | None => Returns None
      | Some (v, c1) =>
          r' <- seq_members Xs' c1 ;;
          match r' with
          | None => Returns None
          | Some (vs, c') => Returns (Some (v :: vs, c'))
          end
      end
  end.

(** A combinator that never returns the empty optional. *)
Definition never_fails (X : combinator) : Prop :=
  forall c, X c <> Returns None.

(** A combinator whose data is never a one-component tuple. *)
Definition unwrapped_data (X : combinator) : Prop :=
  forall c v c' t, X c = Returns (Some (v, c')) -> v <> Tuple [t].

(** With [dist] the number of tokens from a cursor to the end of the input:
    a combinator that never returns a cursor further from the end than the
    one it was given, and one that always returns a nearer one. *)
Definition non_retreating (dist : Cursor -> nat) (X : combinator) : Prop :=
  forall c v c', X c = Returns (Some (v, c')) -> dist c' <= dist c.

Definition advancing (dist : Cursor -> nat) (X : combinator) : Prop :=
  forall c v c', X c = Returns (Some (v, c')) -> dist c' < dist c.

(** The next [n] tokens from a cursor on, when all of them can be read. *)
Fixpoint read_tokens (Item : Type) (deref : Cursor -> option Item)
         (next : Cursor -> Cursor) (n : nat) (it : Cursor) : option (list Item) :=
  match n with
  | O => Some []
  | S n' =>
      match deref it with
      | Some tok =>
          match read_tokens deref next n' (next it) with
          | Some toks => Some (tok :: toks)
          | None => None
          end
      | None => None
      end
  end.

(** The number of constructors of a value. *)
Fixpoint value_size (v : value) : nat :=
  match v with
  | Tok _ => 1
  | Tuple ts =>
      S ((fix sizes (l : list value) : nat :=
            match l with
            | [] => 0
            | x :: l' => value_size x + sizes l'
            end) ts)
  | Opt None => 1
  | Opt (Some x) => S (value_size x)
  | Coll es =>
      S ((fix sizes (l : list value) : nat :=
            match l with
            | [] => 0
            | x :: l' => value_size x + sizes l'
            end) es)
  end.

End Model.

Arguments Tuple {Token} ts.
Arguments Opt {Token} o.
Arguments Coll {Token} es.
Arguments cmb_succ_fn {Token Cursor} it.
Arguments cmb_succ {Token Cursor}.

(** ** An input held in a sequence container

    The iterator is the index of a token in the container; [begin] is 0 and
    [end] the number of tokens.  Only the positions before [end] can be
    dereferenced. *)
Module Input.

Definition token : Type := nat.
Definition iterator : Type := nat.

Definition begin (toks : list token) : iterator := 0.
Definition end_ (toks : list token) : iterator := length toks.
Definition deref (toks : list token) (it : iterator) : option token :=
  nth_error toks it.
Definition next (it : iterator) : iterator := S it.

(** [std::distance(it, end)] *)
Definition distance (toks : list token) (it : iterator) : nat :=
  end_ toks - it.

(** [combinator_values<TokenIterator>::one] *)
Definition one (toks : list token) : combinator token iterator :=
  cmb_one (deref toks) next (@Tok token).

(** A function of the grammar author, wrapped with [wrap<Fn>]: it takes one
    token and fails at the end of the input. *)
Definition one_checked_fn (toks : list token) (it : iterator)
  : outcome (result_type token iterator) :=
  if it <? end_ toks then cmb_one_fn (deref toks) next (@Tok token) it
  else Returns None.

Definition one_checked (toks : list token) : combinator token iterator :=
  fn_wrap (one_checked_fn toks).

(** A wrapped function whose data is a [std::tuple<std::tuple<int, int>>];
    it consumes nothing. *)
Definition pair_in_tuple_fn (it : iterator) : outcome (result_type token iterator) :=
  Returns (make_result (Tuple [Tuple [Tok 1; Tok 2]]) it).

Definition pair_in_tuple : combinator token iterator := fn_wrap pair_in_tuple_fn.

(** A wrapped function that never succeeds. *)
Definition never_fn (it : iterator) : outcome (result_type token iterator) :=
  Returns None.

Definition never : combinator token iterator := fn_wrap never_fn.

(** A failable mapper that returns its argument as a [std::tuple<int>]. *)
Definition in_tuple : failable_mapper token :=
  fun args => Returns (make_expected (Tuple args)).

(** A failable mapper that rejects every value. *)
Definition reject : failable_mapper token :=
  fun args => Returns NoValue.

(** A mapper that cannot be called. *)
Definition unusable : failable_mapper token :=
  fun args => Undefined.

(** The predicate of the token 1. *)
Definition is_one (args : list (value token)) : bool :=
  match args with
  | [Tok 1] => true
  | _ => false
  end.

(** A folder that puts an element in front of a collection. *)
Definition push_front (e acc : value token) : value token :=
  match acc with
  | Coll es => Coll (e :: es)
  | _ => acc
  end.

(** An input whose tokens are [std::tuple<int, int>]: the data of a token is
    the tuple of its two components. *)
Definition pair_token : Type := (nat * nat)%type.

Definition pair_deref (toks : list pair_token) (it : iterator) : option pair_token :=
  nth_error toks it.

Definition pair_data (tok : pair_token) : value token :=
  Tuple [Tok (fst tok); Tok (snd tok)].

Definition pair_one (toks : list pair_token) : combinator token iterator :=
  cmb_one (pair_deref toks) next pair_data.

End Input.

(** * Properties *)

Section Properties.

Variable Token : Type.
Variable Cursor : Type.

Abbreviation value := (value Token).
Abbreviation combinator := (combinator Token Cursor).
Abbreviation result_type := (result_type Token Cursor).

(** ** The monad *)

Lemma bind_returns (A B : Type) (m : outcome A) (k : A -> outcome B) (b : B) :
  bind m k = Returns b -> exists a, m = Returns a /\ k a = Returns b.
Proof.
  destruct m as [a | |]; simpl; intro H; try discriminate.
  exists a; split; [reflexivity | exact H].
Qed.

(** ** Tuples *)

Lemma as_tuple_single_tuple (v : value) (ts : list value) :
  as_tuple v = [Tuple ts] -> tuple_of_tuple v = true.
Proof.
  destruct v as [t | l | o | es]; simpl; intro H; try discriminate.
  subst l. reflexivity.
Qed.

Lemma as_tuple_unwrap (l : list value) :
  (forall ts, l <> [Tuple ts]) ->
  as_tuple (unwrap_tuple (Tuple l)) = l.
Proof.
  intro H.
  destruct l as [| x [| y l']]; simpl; try reflexivity.
  destruct x as [t | ts | o | es]; simpl; try reflexivity.
  exfalso. apply (H ts). reflexivity.
Qed.

Lemma unwrap_not_tuple_of_tuple (l : list value) :
  (forall ts, l <> [Tuple ts]) ->
  tuple_of_tuple (unwrap_tuple (Tuple l)) = false.
Proof.
  intro H.
  destruct l as [| x [| y l']]; simpl.
  - reflexivity.
  - destruct x as [t | ts | o | es]; simpl; try reflexivity.
    exfalso. apply (H ts). reflexivity.
  - destruct x; reflexivity.
Qed.

Lemma concat_as_tuple_plain (vs : list value) :
  Forall (fun v => tuple_of_tuple v = false) vs ->
  forall ts, concat (map (@as_tuple Token) vs) <> [Tuple ts].
Proof.
  induction 1 as [| v vs Hv Hvs IH]; intros ts; simpl.
  - discriminate.
  - intro E.
    destruct (as_tuple v) as [| x l] eqn:Ev; simpl in E.
    + exact (IH ts E).
    + injection E as Ex El.
      apply app_eq_nil in El. destruct El as [El _]. subst x l.
      apply as_tuple_single_tuple in Ev. congruence.
Qed.

Lemma as_tuple_seq_data (vs : list value) :
  Forall (fun v => tuple_of_tuple v = false) vs ->
  as_tuple (seq_data vs) = concat (map (@as_tuple Token) vs).
Proof.
  induction 1 as [| v vs Hv Hvs IH]; simpl.
  - reflexivity.
  - unfold tuple_cat. rewrite IH.
    apply as_tuple_unwrap.
    intros ts E.
    apply (@concat_as_tuple_plain (v :: vs)) with (ts := ts).
    + constructor; assumption.
    + exact E.
Qed.

Lemma seq_data_plain (vs : list value) :
  Forall (fun v => tuple_of_tuple v = false) vs ->
  tuple_of_tuple (seq_data vs) = false.
Proof.
  intro H. destruct H as [| v vs Hv Hvs]; simpl.
  - reflexivity.
  - unfold tuple_cat. rewrite (as_tuple_seq_data Hvs).
    apply unwrap_not_tuple_of_tuple.
    intros ts E.
    apply (@concat_as_tuple_plain (v :: vs)) with (ts := ts).
    + constructor; assumption.
    + exact E.
Qed.

Lemma seq_data_flat (vs : list value) :
  Forall (fun v => tuple_of_tuple v = false) (tl vs) ->
  seq_data vs = flat_data vs.
Proof.
  destruct vs as [| v vs]; simpl; intro H.
  - reflexivity.
  - unfold flat_data, tuple_cat. simpl.
    rewrite (as_tuple_seq_data H). reflexivity.
Qed.

(** The data of [seq<seq<A, B>, C>] and of [seq<A, seq<B, C>>], against the
    data of [seq<A, B, C>]. *)
Lemma seq_data_left (a b d : value) :
  tuple_of_tuple a = false -> tuple_of_tuple b = false -> tuple_of_tuple d = false ->
  unwrap_tuple (tuple_cat (as_tuple (seq_data [a; b])) (as_tuple (seq_data [d])))
  = seq_data [a; b; d].
Proof.
  intros Pa Pb Pd.
  rewrite (@seq_data_flat [a; b; d]) by (repeat constructor; assumption).
  unfold tuple_cat, flat_data.
  rewrite !as_tuple_seq_data by (repeat constructor; assumption).
  simpl. rewrite !app_nil_r, app_assoc. reflexivity.
Qed.

Lemma seq_data_right (a b d : value) :
  tuple_of_tuple a = false -> tuple_of_tuple b = false -> tuple_of_tuple d = false ->
  unwrap_tuple (tuple_cat (as_tuple a) (as_tuple (seq_data [seq_data [b; d]])))
  = seq_data [a; b; d].
Proof.
  intros Pa Pb Pd.
  assert (Pbd : tuple_of_tuple (seq_data [b; d]) = false)
    by (apply seq_data_plain; repeat constructor; assumption).
  rewrite (@seq_data_flat [a; b; d]) by (repeat constructor; assumption).
  unfold tuple_cat, flat_data.
  rewrite (@as_tuple_seq_data [seq_data [b; d]]) by (repeat constructor; assumption).
  change (concat (map (@as_tuple Token) [seq_data [b; d]]))
    with (as_tuple (seq_data [b; d]) ++ []).
  rewrite (@as_tuple_seq_data [b; d]) by (repeat constructor; assumption).
  simpl. rewrite !app_nil_r. reflexivity.
Qed.

(** ** Sequences *)

Lemma seq_run_sound (Xs : list combinator) (c : Cursor) (vs : list value) (c' : Cursor) :
  seq_run Xs c vs c' ->
  cmb_seq_fn Xs c = Returns (Some (seq_data vs, c')).
Proof.
  induction 1 as [c | X Xs c v c1 vs c' HX Hrun IH]; simpl.
  - reflexivity.
  - rewrite HX. simpl. rewrite IH. reflexivity.
Qed.

Lemma seq_fail_sound (Xs : list combinator) (c : Cursor) :
  seq_fail Xs c -> cmb_seq_fn Xs c = Returns None.
Proof.
  induction 1 as [X Xs c HX | X Xs c v c1 HX Hfail IH]; simpl.
  - rewrite HX. reflexivity.
  - rewrite HX. simpl. rewrite IH. reflexivity.
Qed.

Lemma seq_some_inv (Xs : list combinator) :
  forall c v c',
    cmb_seq_fn Xs c = Returns (Some (v, c')) ->
    exists vs, seq_run Xs c vs c' /\ v = seq_data vs.
Proof.
  induction Xs as [| X Xs IH]; simpl; intros c v c' H.
  - injection H as Hv Hc. subst. exists []. split; [constructor | reflexivity].
  - destruct (X c) as [[[a c1] |] | |] eqn:HX; simpl in H; try discriminate.
    destruct (cmb_seq_fn Xs c1) as [[[b c2] |] | |] eqn:HR; simpl in H;
      try discriminate.
    injection H as Hv Hc. subst.
    destruct (IH _ _ _ HR) as [vs [Hrun Hb]]. subst b.
    exists (a :: vs). split; [econstructor; eassumption | reflexivity].
Qed.

Lemma seq_none_inv (Xs : list combinator) :
  forall c, cmb_seq_fn Xs c = Returns None -> seq_fail Xs c.
Proof.
  induction Xs as [| X Xs IH]; simpl; intros c H.
  - discriminate.
  - destruct (X c) as [[[a c1] |] | |] eqn:HX; simpl in H; try discriminate.
    + destruct (cmb_seq_fn Xs c1) as [[[b c2] |] | |] eqn:HR; simpl in H;
        try discriminate.
      eapply seq_fail_later; [eassumption | apply IH; assumption].
    + apply seq_fail_here. assumption.
Qed.

Lemma seq_run_length (Xs : list combinator) (c : Cursor) (vs : list value) (c' : Cursor) :
  seq_run Xs c vs c' -> length vs = length Xs.
Proof.
  induction 1; simpl; congruence.
Qed.

(** ** Alternatives *)

Lemma alt_all_fail (Xs : list combinator) (c : Cursor) :
  Forall (fun Y : combinator => Y c = Returns None) Xs ->
  cmb_alt_fn Xs c = Returns None.
Proof.
  induction 1 as [| X Xs HX HXs IH]; simpl.
  - reflexivity.
  - rewrite HX. simpl. exact IH.
Qed.

Lemma alt_skip (pre Xs : list combinator) (c : Cursor) :
  Forall (fun Y : combinator => Y c = Returns None) pre ->
  cmb_alt_fn (pre ++ Xs) c = cmb_alt_fn Xs c.
Proof.
  induction 1 as [| X pre HX Hpre IH]; simpl.
  - reflexivity.
  - rewrite HX. simpl. exact IH.
Qed.

Lemma alt_none_inv (Xs : list combinator) (c : Cursor) :
  cmb_alt_fn Xs c = Returns None ->
  Forall (fun Y : combinator => Y c = Returns None) Xs.
Proof.
  induction Xs as [| X Xs IH]; simpl; intro H.
  - constructor.
  - destruct (X c) as [[r |] | |] eqn:HX; simpl in H; try discriminate.
    constructor; [assumption | apply IH; assumption].
Qed.

Lemma alt_some_inv (Xs : list combinator) (c : Cursor) (r : value * Cursor) :
  cmb_alt_fn Xs c = Returns (Some r) ->
  exists pre X post,
    Xs = pre ++ X :: post /\
    Forall (fun Y : combinator => Y c = Returns None) pre /\
    X c = Returns (Some r).
Proof.
  induction Xs as [| X Xs IH]; simpl; intro H.
  - discriminate.
  - destruct (X c) as [[r0 |] | |] eqn:HX; simpl in H; try discriminate.
    + injection H as Hr. subst r0.
      exists [], X, Xs. repeat split; [constructor | assumption].
    + destruct (IH H) as [pre [Y [post [E [Hpre HY]]]]].
      exists (X :: pre), Y, post. subst Xs.
      repeat split; [constructor; assumption | assumption].
Qed.

(** ** Repetition *)

Lemma rep_loop_run (X : combinator) (c : Cursor) (vs : list value) (c' : Cursor) :
  rep_run X c vs c' ->
  forall fuel acc,
    length vs < fuel ->
    rep_loop fuel X acc c = Returns (Some (Coll (acc ++ vs), c')).
Proof.
  induction 1 as [c HX | c v c1 vs c' HX Hrun IH]; intros fuel acc Hlen.
  - destruct fuel as [| fuel]; [inversion Hlen |]. simpl.
    rewrite HX. simpl. rewrite app_nil_r. reflexivity.
  - destruct fuel as [| fuel]; [inversion Hlen |]. simpl.
    rewrite HX. simpl. rewrite IH by (simpl in Hlen; lia).
    rewrite <- app_assoc. reflexivity.
Qed.

Lemma rep_loop_inv (X : combinator) :
  forall fuel acc c r,
    rep_loop fuel X acc c = Returns r ->
    exists vs c',
      r = Some (Coll (acc ++ vs), c') /\ rep_run X c vs c' /\ length vs < fuel.
Proof.
  induction fuel as [| fuel IH]; simpl; intros acc c r H.
  - discriminate.
  - destruct (X c) as [[[v c1] |] | |] eqn:HX; simpl in H; try discriminate.
    + destruct (IH _ _ _ H) as [vs [c' [Hr [Hrun Hlen]]]].
      exists (v :: vs), c'. rewrite <- app_assoc in Hr. simpl in Hr.
      repeat split; [assumption | econstructor; eassumption | simpl; lia].
    + injection H as Hr. subst r.
      exists [], c. rewrite app_nil_r.
      repeat split; [constructor; assumption | simpl; lia].
Qed.

Lemma rep_run_deterministic (X : combinator) (c : Cursor) (vs : list value) (c' : Cursor) :
  rep_run X c vs c' ->
  forall ws d, rep_run X c ws d -> ws = vs /\ d = c'.
Proof.
  induction 1 as [c HX | c v c1 vs c' HX Hrun IH]; intros ws d Hw.
  - inversion Hw; subst; [split; reflexivity | congruence].
  - inversion Hw as [c0 HX0 | c0 w d1 ws0 d0 HX0 Hrun0]; subst; [congruence |].
    rewrite HX in HX0. injection HX0 as Hv Hc. subst.
    destruct (IH _ _ Hrun0) as [E1 E2]. subst. split; reflexivity.
Qed.

(** ** The combinators *)

(** C1 (as amended): [cmb_seq_fn] calls its combinators from left to right,
    each at the cursor returned by the one before.  When all of them succeed
    it returns the cursor of the last one with the data built from the last
    member backwards ([seq_data]); this is the concatenation of the components
    of all the data, a single component unwrapped ([flat_data]), when none of
    the data after the first is a one-component tuple that holds a tuple.
    When one of them fails, the ones before it having succeeded, it returns
    the empty optional.  A returned result always comes from one of these two
    runs.  With no combinator it succeeds with [std::make_tuple()] at the
    cursor it was given. *)
Theorem cmb_seq_fn_runs (Xs : list combinator) (c : Cursor) :
  (forall vs c', seq_run Xs c vs c' ->
     cmb_seq_fn Xs c = Returns (Some (seq_data vs, c'))) /\
  (forall vs c', seq_run Xs c vs c' ->
     Forall (fun v => tuple_of_tuple v = false) (tl vs) ->
     cmb_seq_fn Xs c = Returns (Some (flat_data vs, c'))) /\
  (seq_fail Xs c -> cmb_seq_fn Xs c = Returns None) /\
  (forall v c', cmb_seq_fn Xs c = Returns (Some (v, c')) ->
     exists vs, seq_run Xs c vs c' /\ v = seq_data vs) /\
  (cmb_seq_fn Xs c = Returns None -> seq_fail Xs c) /\
  cmb_seq_fn (@nil combinator) c = Returns (Some (Tuple [], c)).
Proof.
  split; [| split; [| split; [| split; [| split]]]].
  - intros vs c' Hrun. apply seq_run_sound. exact Hrun.
  - intros vs c' Hrun Hplain.
    rewrite <- (seq_data_flat vs Hplain). apply seq_run_sound. exact Hrun.
  - apply seq_fail_sound.
  - intros v c'. apply seq_some_inv.
  - apply seq_none_inv.
  - reflexivity.
Qed.

(** C2: [cmb_alt_fn] returns the result of its first alternative unchanged
    when that one succeeds, whatever the others are.  It returns a success
    exactly when some alternative succeeds at the cursor it was given while
    all the alternatives before it fail at that same cursor, and the success
    is that alternative's.  It returns the empty optional exactly when every
    alternative fails at that cursor. *)
Theorem cmb_alt_fn_first_success (First : combinator) (Rest : list combinator)
        (c : Cursor) :
  (forall r, First c = Returns (Some r) -> cmb_alt First Rest c = First c) /\
  (forall r, cmb_alt First Rest c = Returns (Some r) <->
     exists pre X post,
       First :: Rest = pre ++ X :: post /\
       Forall (fun Y : combinator => Y c = Returns None) pre /\
       X c = Returns (Some r)) /\
  (cmb_alt First Rest c = Returns None <->
     Forall (fun Y : combinator => Y c = Returns None) (First :: Rest)).
Proof.
  unfold cmb_alt, fn_wrap.
  split; [| split].
  - intros r H. simpl. rewrite H. reflexivity.
  - intro r. split.
    + apply alt_some_inv.
    + intros [pre [X [post [E [Hpre HX]]]]].
      rewrite E, (alt_skip (X :: post) Hpre). simpl. rewrite HX. reflexivity.
  - split; [apply alt_none_inv | apply alt_all_fail].
Qed.

(** C3 (as amended): for combinators whose data is never a one-component
    tuple that holds a tuple, [seq<seq<A, B>, C>], [seq<A, seq<B, C>>] and
    [seq<A, B, C>] end the same way at every cursor.  When A, B and C succeed
    in turn the data of all three is the concatenation of the components of
    their data, a single component unwrapped, and none of them returns a
    success otherwise; they return the empty optional exactly when A, B or C
    fails in that order. *)
Theorem cmb_seq_assoc_plain (A B C : combinator) (c : Cursor) :
  plain_data A -> plain_data B -> plain_data C ->
  cmb_seq [cmb_seq [A; B]; C] c = cmb_seq [A; B; C] c /\
  cmb_seq [A; cmb_seq [B; C]] c = cmb_seq [A; B; C] c /\
  (forall vs c', seq_run [A; B; C] c vs c' ->
     cmb_seq [A; B; C] c = Returns (Some (flat_data vs, c'))) /\
  (forall v c', cmb_seq [A; B; C] c = Returns (Some (v, c')) ->
     exists vs, seq_run [A; B; C] c vs c' /\ v = flat_data vs) /\
  (cmb_seq [A; B; C] c = Returns None <-> seq_fail [A; B; C] c).
Proof.
  intros HA HB HC.
  assert (Hflat : forall vs c', seq_run [A; B; C] c vs c' ->
                    Forall (fun v => tuple_of_tuple v = false) vs).
  { intros vs c' Hrun.
    inversion Hrun as [| ? ? ? a c1 vs1 ? Ha Hrun1]; subst.
    inversion Hrun1 as [| ? ? ? b c2 vs2 ? Hb Hrun2]; subst.
    inversion Hrun2 as [| ? ? ? d c3 vs3 ? Hd Hrun3]; subst.
    inversion Hrun3; subst.
    repeat constructor; [eapply HA | eapply HB | eapply HC]; eassumption. }
  split; [| split; [| split; [| split]]].
  - unfold cmb_seq, fn_wrap. simpl.
    destruct (A c) as [[[a c1] |] | |] eqn:Ha; simpl; try reflexivity.
    destruct (B c1) as [[[b c2] |] | |] eqn:Hb; simpl; try reflexivity.
    destruct (C c2) as [[[d c3] |] | |] eqn:Hd; simpl; try reflexivity.
    pose proof (HA _ _ _ Ha) as Pa. pose proof (HB _ _ _ Hb) as Pb.
    pose proof (HC _ _ _ Hd) as Pd.
    unfold make_result. do 3 f_equal.
    apply seq_data_left; assumption.
  - unfold cmb_seq, fn_wrap. simpl.
    destruct (A c) as [[[a c1] |] | |] eqn:Ha; simpl; try reflexivity.
    destruct (B c1) as [[[b c2] |] | |] eqn:Hb; simpl; try reflexivity.
    destruct (C c2) as [[[d c3] |] | |] eqn:Hd; simpl; try reflexivity.
    pose proof (HA _ _ _ Ha) as Pa. pose proof (HB _ _ _ Hb) as Pb.
    pose proof (HC _ _ _ Hd) as Pd.
    unfold make_result. do 3 f_equal.
    apply seq_data_right; assumption.
  - intros vs c' Hrun. unfold cmb_seq, fn_wrap.
    rewrite (seq_run_sound Hrun).
    rewrite seq_data_flat; [reflexivity |].
    pose proof (Hflat _ _ Hrun) as HF. inversion HF; subst; simpl; [constructor | assumption].
  - intros v c' H. unfold cmb_seq, fn_wrap in H.
    destruct (seq_some_inv _ _ H) as [vs [Hrun Hv]].
    exists vs. split; [exact Hrun |].
    rewrite Hv. apply seq_data_flat.
    pose proof (Hflat _ _ Hrun) as HF. inversion HF; subst; simpl; [constructor | assumption].
  - unfold cmb_seq, fn_wrap. split; [apply seq_none_inv | apply seq_fail_sound].
Qed.

(** C4: [seq<X>] ends as [X] does: it fails where [X] fails, is undefined
    where [X] is, and where [X] succeeds it returns the cursor of [X] with the
    data of [X] passed through [unwrap_tuple]; so the two results are equal
    whenever the data of [X] is not a one-component tuple. *)
Theorem cmb_seq_single (X : combinator) (c : Cursor) :
  cmb_seq [X] c = (r <- X c ;; Returns (unwrap_result r)) /\
  (X c = Returns None -> cmb_seq [X] c = Returns None) /\
  (forall v c', X c = Returns (Some (v, c')) ->
     cmb_seq [X] c = Returns (Some (unwrap_tuple v, c'))) /\
  (forall v c', X c = Returns (Some (v, c')) ->
     (forall t, v <> Tuple [t]) ->
     cmb_seq [X] c = X c).
Proof.
  assert (E : cmb_seq [X] c = (r <- X c ;; Returns (unwrap_result r))).
  { unfold cmb_seq, fn_wrap. simpl.
    destruct (X c) as [[[v c'] |] | |]; simpl; try reflexivity.
    unfold tuple_cat, make_result. rewrite app_nil_r.
    destruct v as [t | ts | o | es]; reflexivity. }
  split; [exact E | split; [| split]].
  - intro H. rewrite E, H. reflexivity.
  - intros v c' H. rewrite E, H. reflexivity.
  - intros v c' H Hv. rewrite E, H. simpl.
    destruct v as [t | [| x [| y ts]] | o | es]; try reflexivity.
    exfalso. apply (Hv x). reflexivity.
Qed.

(** C5: [cmb_opt_fn] never returns the empty optional.  Where the wrapped
    combinator succeeds it returns that data inside a [std::optional], with
    that cursor; where the wrapped combinator fails it returns an empty
    [std::optional] with the cursor it was given; and it returns a success
    wherever the wrapped combinator returns at all. *)
Theorem cmb_opt_fn_total (X : combinator) (c : Cursor) :
  cmb_opt X c <> Returns None /\
  (forall v c', X c = Returns (Some (v, c')) ->
     cmb_opt X c = Returns (Some (Opt (Some v), c'))) /\
  (X c = Returns None -> cmb_opt X c = Returns (Some (Opt None, c))) /\
  (forall r, X c = Returns r -> exists o c', cmb_opt X c = Returns (Some (Opt o, c'))).
Proof.
  unfold cmb_opt, fn_wrap, cmb_opt_fn.
  split; [| split; [| split]].
  - destruct (X c) as [[[v c'] |] | |]; simpl; discriminate.
  - intros v c' H. rewrite H. reflexivity.
  - intro H. rewrite H. reflexivity.
  - intros r H. rewrite H. destruct r as [[v c'] |]; simpl.
    + exists (Some v), c'. reflexivity.
    + exists None, c. reflexivity.
Qed.

(** C6: [cmb_rep_fn] never returns the empty optional.  When the repeated
    combinator succeeds some number of times in a row, each time at the cursor
    of the success before, and then fails, [cmb_rep_fn] returns the data of
    these successes in that order, with the cursor of the last success (the
    cursor it was given when there is none); and whatever it returns is of
    that kind.  [cmb_rep1_fn] returns the empty optional if and only if the
    repeated combinator fails at the cursor it was given, and ends as
    [cmb_rep_fn] does otherwise. *)
Theorem cmb_rep_fn_collects (X : combinator) (c : Cursor) :
  (forall fuel, cmb_rep fuel X c <> Returns None) /\
  (forall vs c', rep_run X c vs c' ->
     forall fuel, length vs < fuel ->
       cmb_rep fuel X c = Returns (Some (Coll vs, c'))) /\
  (forall fuel r, cmb_rep fuel X c = Returns r ->
     exists vs c', r = Some (Coll vs, c') /\ rep_run X c vs c') /\
  (forall fuel, cmb_rep1 fuel X c = Returns None -> X c = Returns None) /\
  (X c = Returns None ->
     forall fuel, 0 < fuel -> cmb_rep1 fuel X c = Returns None) /\
  (X c <> Returns None ->
     forall fuel, cmb_rep1 fuel X c = cmb_rep fuel X c).
Proof.
  unfold cmb_rep, cmb_rep1, fn_wrap, cmb_rep1_fn, cmb_rep_fn.
  split; [| split; [| split; [| split; [| split]]]].
  - intros fuel H.
    destruct (rep_loop_inv _ _ _ _ H) as [vs [c' [Hr _]]]. discriminate.
  - intros vs c' Hrun fuel Hlen.
    exact (rep_loop_run Hrun [] Hlen).
  - intros fuel r H.
    destruct (rep_loop_inv _ _ _ _ H) as [vs [c' [Hr [Hrun _]]]].
    exists vs, c'. split; assumption.
  - intros fuel H.
    apply bind_returns in H. destruct H as [r [Hrep Hr]].
    destruct (rep_loop_inv _ _ _ _ Hrep) as [vs [c' [E [Hrun _]]]].
    subst r. simpl in Hr.
    destruct vs as [| v vs]; [| discriminate].
    inversion Hrun; subst. assumption.
  - intros HX fuel Hfuel.
    rewrite (rep_loop_run (rep_run_stop X c HX) [] Hfuel). reflexivity.
  - intros HX fuel.
    destruct (rep_loop fuel X [] c) as [r | |] eqn:Hrep; simpl; try reflexivity.
    destruct (rep_loop_inv _ _ _ _ Hrep) as [vs [c' [E [Hrun _]]]].
    subst r. simpl.
    destruct vs as [| v vs]; [| reflexivity].
    inversion Hrun; subst. contradiction.
Qed.

(** C7 (as amended): the map of a mapper that returns an [expected<T>].
    Where the combinator succeeds and the mapper, called on the components of
    its data, returns an empty [expected], the map returns the empty optional.
    Where the mapper returns a value, the map returns that value passed
    through [unwrap_tuple], with the cursor of the combinator; this is the
    value itself unless it is a one-component tuple.  Where the combinator
    fails the map returns the empty optional whatever the mapper is, also for
    a mapper that has no defined result. *)
Theorem cmb_map_expected_unwraps (X : combinator) (f : failable_mapper Token)
        (c : Cursor) :
  (forall v c', X c = Returns (Some (v, c')) ->
     f (as_tuple v) = Returns NoValue ->
     cmb_map X (Failable f) c = Returns None) /\
  (forall v c' w, X c = Returns (Some (v, c')) ->
     f (as_tuple v) = Returns (HasValue w) ->
     cmb_map X (Failable f) c = Returns (Some (unwrap_tuple w, c'))) /\
  (forall v c' w, X c = Returns (Some (v, c')) ->
     f (as_tuple v) = Returns (HasValue w) ->
     (forall t, w <> Tuple [t]) ->
     cmb_map X (Failable f) c = Returns (Some (w, c'))) /\
  (X c = Returns None ->
     forall g : failable_mapper Token, cmb_map X (Failable g) c = Returns None).
Proof.
  unfold cmb_map, fn_wrap, cmb_map_fn, cmb_map_impl_expected.
  split; [| split; [| split]].
  - intros v c' HX Hf. rewrite HX. simpl. rewrite Hf. reflexivity.
  - intros v c' w HX Hf. rewrite HX. simpl. rewrite Hf. reflexivity.
  - intros v c' w HX Hf Hw. rewrite HX. simpl. rewrite Hf. simpl.
    destruct w as [t | [| x [| y ts]] | o | es]; try reflexivity.
    exfalso. apply (Hw x). reflexivity.
  - intros HX g. rewrite HX. reflexivity.
Qed.

(** ** Folds *)

Lemma foldr_loop_app (F : value -> value -> value) (l1 l2 : list value) (a : value) :
  foldr_loop F (l1 ++ l2) a = foldr_loop F l2 (foldr_loop F l1 a).
Proof.
  revert a. induction l1 as [| e l1 IH]; intro a; simpl.
  - reflexivity.
  - apply IH.
Qed.

Lemma foldl_impl_fold_left (F : value -> value -> value) (es : list value) (seed : value) :
  foldl_impl F seed es = fold_left F es seed.
Proof.
  revert seed. induction es as [| e es IH]; intro seed; simpl.
  - reflexivity.
  - apply IH.
Qed.

(** C9 (as amended): [foldr_impl] takes the collection as its first argument
    and the seed as its second.  On the collection [e1, ..., en] and the seed
    it returns combine(e1, combine(e2, ... combine(en, seed))): it walks the
    collection from the back with the seed as the first accumulator, and it
    returns a plain value on every input. *)
Theorem foldr_impl_fold_right (combine : value -> value -> value)
        (es : list value) (seed : value) :
  foldr_impl combine es seed = fold_right combine seed es.
Proof.
  unfold foldr_impl.
  induction es as [| e es IH]; simpl.
  - reflexivity.
  - rewrite foldr_loop_app, IH. reflexivity.
Qed.

(** ** Termination of the repetition *)

Section Progress.

(** The number of tokens between a cursor and the end of the input. *)
Variable dist : Cursor -> nat.

Lemma rep_run_exists (X : combinator) :
  total X ->
  (forall c v c', X c = Returns (Some (v, c')) -> dist c' < dist c) ->
  forall n c, dist c <= n ->
    exists vs c', length vs <= dist c /\ rep_run X c vs c'.
Proof.
  intros Htotal Hprogress.
  induction n as [| n IH]; intros c Hc.
  - destruct (Htotal c) as [[[v c1] |] HX].
    + pose proof (Hprogress _ _ _ HX). lia.
    + exists [], c. split; [simpl; lia | constructor; assumption].
  - destruct (Htotal c) as [[[v c1] |] HX].
    + pose proof (Hprogress _ _ _ HX) as Hlt.
      destruct (IH c1) as [vs [c' [Hlen Hrun]]]; [lia |].
      exists (v :: vs), c'. split; [simpl; lia | econstructor; eassumption].
    + exists [], c. split; [simpl; lia | constructor; assumption].
Qed.

(** C10 (as amended): when the repeated combinator returns at every cursor and every
    success of it returns a cursor strictly nearer to the end of the input,
    the loop of [cmb_rep_fn] ends: it collects at most as many elements as
    there are tokens between the cursor and the end, so it has returned with
    its result after that many iterations and the failing one. *)
Theorem cmb_rep_fn_terminates (X : combinator) (c : Cursor) :
  total X ->
  (forall c0 v c', X c0 = Returns (Some (v, c')) -> dist c' < dist c0) ->
  exists vs c',
    length vs <= dist c /\
    rep_run X c vs c' /\
    forall fuel, dist c < fuel ->
      cmb_rep fuel X c = Returns (Some (Coll vs, c')).
Proof.
  intros Htotal Hprogress.
  destruct (rep_run_exists Htotal Hprogress (le_n (dist c))) as [vs [c' [Hlen Hrun]]].
  exists vs, c'. split; [exact Hlen | split; [exact Hrun |]].
  intros fuel Hfuel. unfold cmb_rep, fn_wrap, cmb_rep_fn.
  apply (rep_loop_run Hrun []). lia.
Qed.

End Progress.

End Properties.

(** * The combinators on an input held in a container *)

Import Input.

Lemma one_checked_total (toks : list token) : total (one_checked toks).
Proof.
  intro c. unfold one_checked, fn_wrap, one_checked_fn, cmb_one_fn, deref, end_.
  destruct (c <? length toks) eqn:Hc.
  - apply Nat.ltb_lt in Hc.
    destruct (nth_error toks c) as [tok |] eqn:Hn.
    + eexists. reflexivity.
    + apply nth_error_None in Hn. lia.
  - eexists. reflexivity.
Qed.

Lemma one_checked_success (toks : list token) (c : iterator)
      (v : value token) (c' : iterator) :
  one_checked toks c = Returns (Some (v, c')) ->
  c < end_ toks /\ c' = next c /\ exists tok, v = Tok tok.
Proof.
  unfold one_checked, fn_wrap, one_checked_fn, cmb_one_fn, deref, make_result.
  destruct (c <? end_ toks) eqn:Hc; [| discriminate].
  apply Nat.ltb_lt in Hc.
  destruct (nth_error toks c) as [tok |]; [| discriminate].
  intro H. injection H as Hv Hc'. subst.
  split; [exact Hc | split; [reflexivity | exists tok; reflexivity]].
Qed.

Lemma one_checked_progress (toks : list token) (c : iterator)
      (v : value token) (c' : iterator) :
  one_checked toks c = Returns (Some (v, c')) ->
  distance toks c' < distance toks c.
Proof.
  intro H. apply one_checked_success in H.
  destruct H as [Hc [Hc' _]]. subst c'. unfold distance, next. lia.
Qed.

Lemma one_checked_plain (toks : list token) : plain_data (one_checked toks).
Proof.
  intros c v c' H. apply one_checked_success in H.
  destruct H as [_ [_ [tok Hv]]]. subst v. reflexivity.
Qed.

(** Whatever list of components one assigns to each datum, the data of some
    sequence is not the concatenation of the lists of its members: the tuple
    in a tuple gives its one component after a token and the components of
    that component before it. *)
Lemma cmb_seq_fn_no_flattening :
  ~ exists flat : value token -> list (value token),
      forall (Xs : list (combinator token iterator)) c vs c',
        seq_run Xs c vs c' ->
        cmb_seq_fn Xs c
        = Returns (Some (unwrap_tuple (Tuple (concat (map flat vs))), c')).
Proof.
  intros [flat H].
  assert (R1 : seq_run [one [7]] 0 [Tok 7] 1).
  { eapply seq_run_cons; [reflexivity | apply seq_run_nil]. }
  assert (R2 : seq_run [pair_in_tuple; one [7]] 0
                       [Tuple [Tuple [Tok 1; Tok 2]]; Tok 7] 1).
  { eapply seq_run_cons; [reflexivity |].
    eapply seq_run_cons; [reflexivity | apply seq_run_nil]. }
  assert (R3 : seq_run [one [7]; pair_in_tuple] 0
                       [Tok 7; Tuple [Tuple [Tok 1; Tok 2]]] 1).
  { eapply seq_run_cons; [reflexivity |].
    eapply seq_run_cons; [reflexivity | apply seq_run_nil]. }
  apply H in R1. apply H in R2. apply H in R3.
  simpl in R1, R2, R3. rewrite app_nil_r in *.
  destruct (flat (Tok 7)) as [| x [| y l]]; simpl in R1; try discriminate.
  injection R1 as Hx. subst x.
  destruct (flat (Tuple [Tuple [Tok 1; Tok 2]])) as [| p [| q r]];
    simpl in R2, R3; try discriminate.
  unfold make_result, tuple_cat in R2. simpl in R2.
  injection R2 as _ _ Hr. destruct r; discriminate.
Qed.

(** C1, counterexample: after a token, the data [std::tuple<std::tuple<int,
    int>>] of the second member enters the data of the sequence as two
    components, not as its one component; before a token it enters as that
    one component. *)
Lemma cmb_seq_fn_tuple_in_tuple :
  seq_run [one [7]; pair_in_tuple] 0 [Tok 7; Tuple [Tuple [Tok 1; Tok 2]]] 1 /\
  cmb_seq_fn [one [7]; pair_in_tuple] 0
  = Returns (Some (Tuple [Tok 7; Tok 1; Tok 2], 1)) /\
  cmb_seq_fn [one [7]; pair_in_tuple] 0
  <> Returns (Some (flat_data [Tok 7; Tuple [Tuple [Tok 1; Tok 2]]], 1)) /\
  cmb_seq_fn [pair_in_tuple; one [7]] 0
  = Returns (Some (Tuple [Tuple [Tok 1; Tok 2]; Tok 7], 1)).
Proof.
  split; [| split; [| split]].
  - eapply seq_run_cons; [reflexivity |].
    eapply seq_run_cons; [reflexivity | apply seq_run_nil].
  - reflexivity.
  - discriminate.
  - reflexivity.
Qed.

(** C1, witness: three tokens taken one after the other. *)
Lemma cmb_seq_fn_runs_three_tokens :
  seq_run [one [7; 8; 9]; one [7; 8; 9]; one [7; 8; 9]] 0 [Tok 7; Tok 8; Tok 9] 3 /\
  cmb_seq_fn [one [7; 8; 9]; one [7; 8; 9]; one [7; 8; 9]] 0
  = Returns (Some (Tuple [Tok 7; Tok 8; Tok 9], 3)).
Proof.
  assert (R : seq_run [one [7; 8; 9]; one [7; 8; 9]; one [7; 8; 9]] 0
                      [Tok 7; Tok 8; Tok 9] 3).
  { eapply seq_run_cons; [reflexivity |].
    eapply seq_run_cons; [reflexivity |].
    eapply seq_run_cons; [reflexivity | apply seq_run_nil]. }
  split; [exact R |].
  apply (proj1 (proj2 (@cmb_seq_fn_runs token iterator
                         [one [7; 8; 9]; one [7; 8; 9]; one [7; 8; 9]] 0))
               [Tok 7; Tok 8; Tok 9] 3 R).
  repeat constructor.
Defined.

(** C2, witness: the first alternative needs two tokens and fails on an
    input of one; the second is tried at the same cursor. *)
Lemma cmb_alt_fn_second_alternative :
  cmb_seq [one_checked [5]; one_checked [5]] 0 = Returns None /\
  cmb_alt (cmb_seq [one_checked [5]; one_checked [5]]) [one_checked [5]] 0
  = Returns (Some (Tok 5, 1)).
Proof.
  split; [reflexivity |].
  apply (proj2 (proj1 (proj2 (@cmb_alt_fn_first_success token iterator
           (cmb_seq [one_checked [5]; one_checked [5]]) [one_checked [5]] 0))
           (Tok 5, 1))).
  exists [cmb_seq [one_checked [5]; one_checked [5]]], (one_checked [5]), [].
  split; [reflexivity | split; [| reflexivity]].
  constructor; [reflexivity | constructor].
Defined.

(** C3, counterexample: with a member whose data is a
    [std::tuple<std::tuple<int, int>>], grouping to the left gives three
    components and no grouping gives two. *)
Lemma cmb_seq_assoc_tuple_in_tuple :
  cmb_seq [cmb_seq [cmb_succ; pair_in_tuple]; one [7]] 0
  = Returns (Some (Tuple [Tok 1; Tok 2; Tok 7], 1)) /\
  cmb_seq [cmb_succ; pair_in_tuple; one [7]] 0
  = Returns (Some (Tuple [Tuple [Tok 1; Tok 2]; Tok 7], 1)) /\
  cmb_seq [cmb_seq [cmb_succ; pair_in_tuple]; one [7]] 0
  <> cmb_seq [cmb_succ; pair_in_tuple; one [7]] 0.
Proof.
  split; [reflexivity | split; [reflexivity | discriminate]].
Qed.

(** C3, witness: three tokens, grouped in the three ways. *)
Lemma cmb_seq_assoc_three_tokens :
  cmb_seq [cmb_seq [one_checked [7; 8; 9]; one_checked [7; 8; 9]];
           one_checked [7; 8; 9]] 0
  = cmb_seq [one_checked [7; 8; 9]; one_checked [7; 8; 9]; one_checked [7; 8; 9]] 0 /\
  cmb_seq [one_checked [7; 8; 9];
           cmb_seq [one_checked [7; 8; 9]; one_checked [7; 8; 9]]] 0
  = cmb_seq [one_checked [7; 8; 9]; one_checked [7; 8; 9]; one_checked [7; 8; 9]] 0.
Proof.
  pose proof (@cmb_seq_assoc_plain token iterator
                (one_checked [7; 8; 9]) (one_checked [7; 8; 9])
                (one_checked [7; 8; 9]) 0
                (one_checked_plain [7; 8; 9]) (one_checked_plain [7; 8; 9])
                (one_checked_plain [7; 8; 9])) as H.
  split; [exact (proj1 H) | exact (proj1 (proj2 H))].
Defined.

(** C4, witness: a sequence of the one-token combinator alone. *)
Lemma cmb_seq_single_token :
  one [5] 0 = Returns (Some (Tok 5, 1)) /\
  cmb_seq [one [5]] 0 = one [5] 0.
Proof.
  split; [reflexivity |].
  apply (proj2 (proj2 (proj2 (@cmb_seq_single token iterator (one [5]) 0)))
               (Tok 5) 1).
  - reflexivity.
  - intros t H. discriminate H.
Defined.

(** C5, witness: the optional of a combinator that fails. *)
Lemma cmb_opt_fn_of_failure :
  never 3 = Returns None /\
  cmb_opt never 3 = Returns (Some (Opt None, 3)).
Proof.
  split; [reflexivity |].
  apply (proj1 (proj2 (proj2 (@cmb_opt_fn_total token iterator never 3)))).
  reflexivity.
Defined.

(** C6, witness: ones are taken while the filter accepts them; the
    repetition stops before the token 2. *)
Lemma cmb_rep_fn_collects_ones :
  rep_run (cmb_map (one_checked [1; 1; 1; 2]) (Failable (filter_impl is_one)))
          0 [Tok 1; Tok 1; Tok 1] 3 /\
  cmb_rep 4 (cmb_map (one_checked [1; 1; 1; 2]) (Failable (filter_impl is_one))) 0
  = Returns (Some (Coll [Tok 1; Tok 1; Tok 1], 3)).
Proof.
  assert (R : rep_run (cmb_map (one_checked [1; 1; 1; 2])
                               (Failable (filter_impl is_one)))
                      0 [Tok 1; Tok 1; Tok 1] 3).
  { eapply rep_run_step; [reflexivity |].
    eapply rep_run_step; [reflexivity |].
    eapply rep_run_step; [reflexivity |].
    apply rep_run_stop. reflexivity. }
  split; [exact R |].
  apply (proj1 (proj2 (@cmb_rep_fn_collects token iterator
           (cmb_map (one_checked [1; 1; 1; 2]) (Failable (filter_impl is_one))) 0))
               [Tok 1; Tok 1; Tok 1] 3 R 4).
  simpl. lia.
Defined.

(** C7, counterexample: the mapper returns its argument as a
    [std::tuple<int>]; the map returns the bare token. *)
Lemma cmb_map_expected_one_tuple :
  one [5] 0 = Returns (Some (Tok 5, 1)) /\
  in_tuple (as_tuple (Tok 5)) = Returns (HasValue (Tuple [Tok 5])) /\
  cmb_map (one [5]) (Failable in_tuple) 0 = Returns (Some (Tok 5, 1)) /\
  cmb_map (one [5]) (Failable in_tuple) 0 <> Returns (Some (Tuple [Tok 5], 1)).
Proof.
  split; [reflexivity | split; [reflexivity | split; [reflexivity | discriminate]]].
Qed.

(** C7, witness: the combinator takes the token and the mapper rejects it. *)
Lemma cmb_map_expected_rejected :
  one [5] 0 = Returns (Some (Tok 5, 1)) /\
  reject (as_tuple (Tok 5)) = Returns NoValue /\
  cmb_map (one [5]) (Failable reject) 0 = Returns None.
Proof.
  split; [reflexivity | split; [reflexivity |]].
  apply (proj1 (@cmb_map_expected_unwraps token iterator (one [5]) reject 0)
               (Tok 5) 1).
  - reflexivity.
  - reflexivity.
Defined.

(** C8, counterexample: on the empty input the repetition of the one-token
    combinator returns no empty collection, and the repetition that wants one
    element returns no empty optional, however long they run. *)
Lemma cmb_rep_one_empty_input :
  (forall fuel,
     cmb_rep fuel (one []) (begin []) <> Returns (Some (Coll [], begin []))) /\
  (forall fuel, cmb_rep1 fuel (one []) (begin []) <> Returns None).
Proof.
  split; intros [| fuel]; simpl; discriminate.
Qed.

(** C8 (as amended): on the empty input the first cursor is the end cursor.
    [cmb_one_fn] dereferences it without a test, so its call has no defined
    result there, and neither has the repetition of it, with or without a
    first element.  With the wrapped function that tests for the end of the
    input, the repetition returns an empty collection with the first cursor,
    and the repetition that wants one element returns the empty optional. *)
Theorem cmb_rep_empty_input :
  begin [] = end_ [] /\
  one [] (begin []) = Undefined /\
  (forall fuel, 0 < fuel -> cmb_rep fuel (one []) (begin []) = Undefined) /\
  (forall fuel, 0 < fuel -> cmb_rep1 fuel (one []) (begin []) = Undefined) /\
  (forall fuel, 0 < fuel ->
     cmb_rep fuel (one_checked []) (begin [])
     = Returns (Some (Coll [], begin []))) /\
  (forall fuel, 0 < fuel ->
     cmb_rep1 fuel (one_checked []) (begin []) = Returns None).
Proof.
  split; [reflexivity | split; [reflexivity |]].
  repeat split; intros [| fuel] H; try (inversion H; fail); reflexivity.
Qed.

(** C8, witness: one iteration on the empty input. *)
Lemma cmb_rep_empty_input_once :
  cmb_rep 1 (one []) (begin []) = Undefined /\
  cmb_rep 1 (one_checked []) (begin []) = Returns (Some (Coll [], begin [])) /\
  cmb_rep1 1 (one_checked []) (begin []) = Returns None.
Proof.
  split; [| split].
  - apply (proj1 (proj2 (proj2 cmb_rep_empty_input)) 1). lia.
  - apply (proj1 (proj2 (proj2 (proj2 (proj2 cmb_rep_empty_input)))) 1). lia.
  - apply (proj2 (proj2 (proj2 (proj2 (proj2 cmb_rep_empty_input)))) 1). lia.
Defined.

(** C9, counterexample: called on an initial value and then a collection,
    [foldr_impl] walks the initial value and starts from the collection. *)
Lemma foldr_impl_initial_first :
  foldr_impl push_front [Tok 1] (Coll [Tok 2; Tok 3])
  = Coll [Tok 1; Tok 2; Tok 3] /\
  fold_right push_front (Coll [Tok 1]) [Tok 2; Tok 3]
  = Coll [Tok 2; Tok 3; Tok 1] /\
  foldr_impl push_front [Tok 1] (Coll [Tok 2; Tok 3])
  <> fold_right push_front (Coll [Tok 1]) [Tok 2; Tok 3].
Proof.
  split; [reflexivity | split; [reflexivity | discriminate]].
Qed.

(** C10, witness: the wrapped one-token function on three tokens. *)
Lemma cmb_rep_fn_terminates_three_tokens :
  exists vs c',
    length vs <= distance [7; 8; 9] 0 /\
    rep_run (one_checked [7; 8; 9]) 0 vs c' /\
    forall fuel, distance [7; 8; 9] 0 < fuel ->
      cmb_rep fuel (one_checked [7; 8; 9]) 0 = Returns (Some (Coll vs, c')).
Proof.
  apply (@cmb_rep_fn_terminates token iterator (distance [7; 8; 9])
           (one_checked [7; 8; 9]) 0).
  - apply one_checked_total.
  - apply one_checked_progress.
Defined.

(** * Further properties of the header *)

Section Coverage.

Variable Token : Type.
Variable Cursor : Type.

Abbreviation value := (value Token).
Abbreviation combinator := (combinator Token Cursor).
Abbreviation result_type := (result_type Token Cursor).

(** ** Wrapping and unwrapping *)

Lemma value_not_own_component (t : value) : t <> Tuple [t].
Proof.
  intro E. apply (f_equal (@value_size Token)) in E. simpl in E. lia.
Qed.

Lemma list_not_own_component (ts : list value) : ts <> [Tuple ts].
Proof.
  intro E. apply (f_equal (fun l => @value_size Token (Tuple l))) in E.
  simpl in E. lia.
Qed.

Lemma unwrap_as_tuple (v : value) :
  unwrap_tuple (Tuple (as_tuple v)) = unwrap_tuple v.
Proof.
  destruct v as [t | ts | o | es]; reflexivity.
Qed.

Lemma unwrap_fixed (v : value) :
  (forall t, v <> Tuple [t]) -> unwrap_tuple v = v.
Proof.
  intro H. destruct v as [t | [| x [| y ts]] | o | es]; try reflexivity.
  exfalso. apply (H x). reflexivity.
Qed.

(** X1: wrapping a value with [as_tuple] and unwrapping the tuple gives what
    [unwrap_tuple] gives on the value, and gives the value back exactly when
    it is not a one-component tuple; unwrapping a tuple and wrapping the
    result gives the components back exactly when they are not one tuple
    alone. *)
Theorem as_tuple_unwrap_tuple_round_trip :
  (forall v : value, unwrap_tuple (Tuple (as_tuple v)) = unwrap_tuple v) /\
  (forall v : value,
     unwrap_tuple (Tuple (as_tuple v)) = v <-> (forall t, v <> Tuple [t])) /\
  (forall l : list value,
     as_tuple (unwrap_tuple (Tuple l)) = l <-> (forall ts, l <> [Tuple ts])).
Proof.
  split; [exact unwrap_as_tuple | split].
  - intro v. rewrite unwrap_as_tuple. split.
    + intros E t Hv. subst v. simpl in E.
      exact (value_not_own_component E).
    + apply unwrap_fixed.
  - intro l. split.
    + intros E ts Hl. subst l. simpl in E.
      exact (list_not_own_component E).
    + apply as_tuple_unwrap.
Qed.

(** ** Maps *)

(** X2: a map with a mapper that returns a plain value fails exactly where
    its combinator fails, and succeeds exactly where the combinator succeeds
    and the mapper returns: then with the cursor of the combinator and the
    mapper's value passed through [unwrap_tuple].  The mapper that returns
    its arguments as a tuple makes the map the one-member sequence. *)
Theorem cmb_map_plain_result (X : combinator) (f : mapper Token) (c : Cursor) :
  (cmb_map X (Plain f) c = Returns None <-> X c = Returns None) /\
  (forall w c',
     cmb_map X (Plain f) c = Returns (Some (w, c')) <->
     exists v z,
       X c = Returns (Some (v, c')) /\
       f (as_tuple v) = Returns z /\
       w = unwrap_tuple z) /\
  cmb_map X (Plain (fun args => Returns (Tuple args))) c = cmb_seq [X] c.
Proof.
  unfold cmb_map, cmb_seq, fn_wrap, cmb_map_fn, cmb_map_impl.
  split; [| split].
  - destruct (X c) as [[[v c1] |] | |]; simpl; split; intro H;
      try discriminate; try reflexivity.
    destruct (f (as_tuple v)); discriminate.
  - intros w c'. split.
    + intro H. destruct (X c) as [[[v c1] |] | |]; simpl in H; try discriminate.
      destruct (f (as_tuple v)) as [z | |] eqn:Hf; simpl in H; try discriminate.
      injection H as Hw Hc. subst. exists v, z. repeat split; assumption.
    + intros [v [z [HX [Hf Hw]]]]. rewrite HX. simpl. rewrite Hf. subst w.
      reflexivity.
  - simpl. destruct (X c) as [[[v c1] |] | |]; simpl; try reflexivity.
    unfold tuple_cat. simpl. rewrite app_nil_r. reflexivity.
Qed.

(** X3: two maps written with the subscript operator, one on the other, are
    one map: its mapper calls the first mapper and hands the components of
    the unwrapped value to the second. *)
Theorem make_subscript_map_fusion (X : combinator) (f g : mapper Token)
        (c : Cursor) :
  make_subscript_map (make_subscript_map X (Plain f)) (Plain g) c
  = make_subscript_map X
      (Plain (fun args => z <- f args ;; g (as_tuple (unwrap_tuple z)))) c.
Proof.
  unfold make_subscript_map, cmb_map, fn_wrap, cmb_map_fn, cmb_map_impl.
  destruct (X c) as [[[v c1] |] | |]; simpl; try reflexivity.
  destruct (f (as_tuple v)) as [z | |]; reflexivity.
Qed.

Lemma filter_data (v : value) :
  (forall t, v <> Tuple [t]) ->
  unwrap_tuple (unwrap_tuple (Tuple (as_tuple v))) = v.
Proof.
  intro H. rewrite unwrap_as_tuple, (unwrap_fixed H), (unwrap_fixed H). reflexivity.
Qed.


(** X5: for a combinator whose data is never a one-component tuple, a filter
    on a filter is the filter of both predicates together. *)
Theorem cmb_map_filter_twice (X : combinator) (p q : list value -> bool)
        (c : Cursor) :
  unwrapped_data X ->
  cmb_map (cmb_map X (Failable (filter_impl p))) (Failable (filter_impl q)) c
  = cmb_map X (Failable (filter_impl (fun args => andb (p args) (q args)))) c.
Proof.
  intro HX.
  unfold cmb_map, fn_wrap, cmb_map_fn, cmb_map_impl_expected, filter_impl.
  destruct (X c) as [[[v c1] |] | |] eqn:E; cbn [bind]; try reflexivity.
  assert (Hv : forall t, v <> Tuple [t]) by (intro t; exact (HX _ _ _ t E)).
  destruct (p (as_tuple v)) eqn:Hp; cbn [bind andb]; [| reflexivity].
  unfold make_expected, make_result. cbn [bind]. rewrite (filter_data Hv).
  destruct (q (as_tuple v)) eqn:Hq; cbn [bind]; [| reflexivity].
  rewrite (filter_data Hv). reflexivity.
Qed.

(** ** Folds *)

Lemma foldr_loop_foldl_impl (F : value -> value -> value) (l : list value) (a : value) :
  foldr_loop F l a = foldl_impl (fun acc e => F e acc) a l.
Proof.
  revert a. induction l as [| e l IH]; intro a; simpl.
  - reflexivity.
  - apply IH.
Qed.

(** X6: [foldl_impl] on the seed and the collection [e1, ..., en] returns
    combine(... combine(combine(seed, e1), e2) ..., en); folding a collection
    in two parts is folding the second part from the fold of the first; and
    [foldr_impl] is [foldl_impl] on the reversed collection with the arguments
    of the folder exchanged. *)
Theorem foldl_impl_left_fold (F : value -> value -> value) (seed : value) :
  (forall es, foldl_impl F seed es = fold_left F es seed) /\
  (forall es1 es2,
     foldl_impl F seed (es1 ++ es2) = foldl_impl F (foldl_impl F seed es1) es2) /\
  (forall es,
     foldr_impl F es seed = foldl_impl (fun acc e => F e acc) seed (rev es)).
Proof.
  split; [| split].
  - intro es. revert seed. induction es as [| e es IH]; intro seed; simpl.
    + reflexivity.
    + apply IH.
  - intros es1. revert seed. induction es1 as [| e es1 IH]; intros seed es2; simpl.
    + reflexivity.
    + apply IH.
  - intro es. unfold foldr_impl. apply foldr_loop_foldl_impl.
Qed.

(** ** Sequences inside sequences *)

Lemma Forall_tl (A : Type) (P : A -> Prop) (l : list A) :
  Forall P l -> Forall P (tl l).
Proof.
  intro H. destruct H; simpl; [constructor | assumption].
Qed.

Lemma cmb_seq_fn_members (Xs : list combinator) :
  forall c,
    cmb_seq_fn Xs c
    = (r <- seq_members Xs c ;;
       Returns match r with
               | Some (vs, c') => Some (seq_data vs, c')
               | None => None
               end).
Proof.
  induction Xs as [| X Xs IH]; intro c; simpl.
  - reflexivity.
  - destruct (X c) as [[[v c1] |] | |]; cbn [bind]; try reflexivity.
    rewrite IH.
    destruct (seq_members Xs c1) as [[[vs c'] |] | |]; reflexivity.
Qed.

Lemma seq_members_app (Xs Ys : list combinator) :
  forall c,
    seq_members (Xs ++ Ys) c
    = (r <- seq_members Xs c ;;
       match r with
       | None => Returns None
       | Some (vs, c1) =>
           r' <- seq_members Ys c1 ;;
           match r' with
           | None => Returns None
           | Some (ws, c2) => Returns (Some (vs ++ ws, c2))
           end
       end).
Proof.
  induction Xs as [| X Xs IH]; intro c; simpl.
  - destruct (seq_members Ys c) as [[[ws c2] |] | |]; reflexivity.
  - destruct (X c) as [[[v c1] |] | |]; cbn [bind]; try reflexivity.
    rewrite IH.
    destruct (seq_members Xs c1) as [[[vs c'] |] | |]; cbn [bind];
      try reflexivity.
    destruct (seq_members Ys c') as [[[ws c2] |] | |]; reflexivity.
Qed.

Lemma seq_members_plain (Xs : list combinator) :
  Forall (@plain_data Token Cursor) Xs ->
  forall c vs c',
    seq_members Xs c = Returns (Some (vs, c')) ->
    Forall (fun v => tuple_of_tuple v = false) vs.
Proof.
  induction 1 as [| X Xs HX HXs IH]; simpl; intros c vs c' H.
  - injection H as Hv _. subst vs. constructor.
  - destruct (X c) as [[[v c1] |] | |] eqn:E; simpl in H; try discriminate.
    destruct (seq_members Xs c1) as [[[ws c2] |] | |] eqn:E1; simpl in H;
      try discriminate.
    injection H as Hv _. subst vs.
    constructor; [exact (HX _ _ _ E) | exact (IH _ _ _ E1)].
Qed.

Lemma seq_data_app (vs ws : list value) :
  Forall (fun v => tuple_of_tuple v = false) vs ->
  Forall (fun v => tuple_of_tuple v = false) ws ->
  unwrap_tuple (tuple_cat (as_tuple (seq_data vs)) (as_tuple (seq_data ws)))
  = seq_data (vs ++ ws).
Proof.
  intros Hvs Hws.
  rewrite (@seq_data_flat _ (vs ++ ws))
    by (apply Forall_tl, Forall_app; split; assumption).
  unfold tuple_cat, flat_data.
  rewrite (as_tuple_seq_data Hvs), (as_tuple_seq_data Hws).
  rewrite map_app, concat_app. reflexivity.
Qed.

Lemma seq_splice_head (Xs Ys : list combinator) :
  Forall (@plain_data Token Cursor) Xs ->
  Forall (@plain_data Token Cursor) Ys ->
  forall c,
    cmb_seq_fn (fn_wrap (cmb_seq_fn Xs) :: Ys) c = cmb_seq_fn (Xs ++ Ys) c.
Proof.
  intros HXs HYs c.
  rewrite (cmb_seq_fn_members (Xs ++ Ys)), seq_members_app.
  cbn [cmb_seq_fn]. unfold fn_wrap. rewrite (cmb_seq_fn_members Xs).
  destruct (seq_members Xs c) as [[[vs c1] |] | |] eqn:EX; cbn [bind];
    try reflexivity.
  rewrite (cmb_seq_fn_members Ys).
  destruct (seq_members Ys c1) as [[[ws c2] |] | |] eqn:EY; cbn [bind];
    try reflexivity.
  unfold make_result. do 3 f_equal.
  apply seq_data_app.
  - exact (seq_members_plain HXs _ EX).
  - exact (seq_members_plain HYs _ EY).
Qed.

Lemma seq_splice (pre Xs Ys : list combinator) :
  Forall (@plain_data Token Cursor) Xs ->
  Forall (@plain_data Token Cursor) Ys ->
  forall c,
    cmb_seq_fn (pre ++ fn_wrap (cmb_seq_fn Xs) :: Ys) c
    = cmb_seq_fn (pre ++ Xs ++ Ys) c.
Proof.
  intros HXs HYs.
  induction pre as [| X pre IH]; intro c.
  - cbn [app]. apply seq_splice_head; assumption.
  - cbn [app cmb_seq_fn].
    destruct (X c) as [[[v c1] |] | |]; cbn [bind]; try reflexivity.
    rewrite IH. reflexivity.
Qed.

Lemma cmb_seq_fn_head_ext (A A' : combinator) (Ys : list combinator) (c : Cursor) :
  A c = A' c -> cmb_seq_fn (A :: Ys) c = cmb_seq_fn (A' :: Ys) c.
Proof.
  intro E. cbn [cmb_seq_fn]. rewrite E. reflexivity.
Qed.

Lemma operator_amp_fold (Xs : list combinator) :
  Forall (@plain_data Token Cursor) Xs ->
  forall (P : list combinator) (A : combinator),
    Forall (@plain_data Token Cursor) P ->
    (forall c, A c = cmb_seq P c) ->
    forall c, fold_left (@operator_amp Token Cursor) Xs A c = cmb_seq (P ++ Xs) c.
Proof.
  induction 1 as [| X Xs HX HXs IH]; intros P A HP HA c; simpl.
  - rewrite app_nil_r. apply HA.
  - replace (P ++ X :: Xs) with ((P ++ [X]) ++ Xs)
      by (rewrite <- app_assoc; reflexivity).
    apply IH.
    + apply Forall_app. split; [exact HP | constructor; [exact HX | constructor]].
    + intro c0. unfold operator_amp, cmb_seq, fn_wrap.
      rewrite (@cmb_seq_fn_head_ext A (fn_wrap (cmb_seq_fn P)) [X] c0)
        by apply HA.
      apply (@seq_splice_head P [X]); [exact HP | constructor; [exact HX | constructor]].
Qed.

(** X8: a sequence standing as a member of a sequence can be replaced by its
    own members, wherever it stands, when its members and the members after
    it never return a one-component tuple that holds a tuple: the two
    sequences end the same way at every cursor. *)
Theorem cmb_seq_splice (pre Xs post : list combinator) (c : Cursor) :
  Forall (@plain_data Token Cursor) Xs ->
  Forall (@plain_data Token Cursor) post ->
  cmb_seq (pre ++ cmb_seq Xs :: post) c = cmb_seq (pre ++ Xs ++ post) c.
Proof.
  intros HXs Hpost.
  change (cmb_seq_fn (pre ++ fn_wrap (cmb_seq_fn Xs) :: post) c
          = cmb_seq_fn (pre ++ Xs ++ post) c).
  apply seq_splice; assumption.
Qed.

(** X9: [cmb_succ] is a unit of the sequence.  As the last member it can be
    left out whatever the other members are; at any other place it can be
    left out when the members after it never return a one-component tuple
    that holds a tuple. *)
Theorem cmb_succ_unit (pre post : list combinator) (c : Cursor) :
  cmb_seq (pre ++ [cmb_succ]) c = cmb_seq pre c /\
  (Forall (@plain_data Token Cursor) post ->
   cmb_seq (pre ++ cmb_succ :: post) c = cmb_seq (pre ++ post) c).
Proof.
  unfold cmb_seq, fn_wrap.
  change (@cmb_succ Token Cursor) with (fn_wrap (@cmb_seq_fn Token Cursor [])).
  split.
  - rewrite (@seq_splice pre [] []) by constructor.
    rewrite app_nil_r. reflexivity.
  - intro Hpost. apply (@seq_splice pre [] post); [constructor | exact Hpost].
Qed.

(** X10: a chain [x0 & x1 & ... & xn] of two or more combinators, which C++
    groups to the left, ends at every cursor as the one sequence of
    [x0, x1, ..., xn], when none of them returns a one-component tuple that
    holds a tuple. *)
Theorem operator_amp_chain (X0 X1 : combinator) (Xs : list combinator)
        (c : Cursor) :
  Forall (@plain_data Token Cursor) (X0 :: X1 :: Xs) ->
  fold_left (@operator_amp Token Cursor) (X1 :: Xs) X0 c
  = cmb_seq (X0 :: X1 :: Xs) c.
Proof.
  intro H. inversion H as [| ? ? H0 H']; subst.
  inversion H' as [| ? ? H1 HXs]; subst.
  simpl fold_left.
  apply (@operator_amp_fold Xs HXs [X0; X1] (operator_amp X0 X1)).
  - constructor; [exact H0 | constructor; [exact H1 | constructor]].
  - intro c0. reflexivity.
Qed.

(** ** Alternatives inside alternatives *)

Lemma alt_app (Xs Ys : list combinator) (c : Cursor) :
  cmb_alt_fn (Xs ++ Ys) c
  = (r <- cmb_alt_fn Xs c ;;
     match r with
     | Some _ => Returns r
     | None => cmb_alt_fn Ys c
     end).
Proof.
  induction Xs as [| X Xs IH]; simpl.
  - reflexivity.
  - destruct (X c) as [[r |] | |]; cbn [bind]; try reflexivity.
    exact IH.
Qed.

Lemma alt_splice (pre Xs post : list combinator) (c : Cursor) :
  cmb_alt_fn (pre ++ fn_wrap (cmb_alt_fn Xs) :: post) c
  = cmb_alt_fn (pre ++ Xs ++ post) c.
Proof.
  rewrite !alt_app. cbn [cmb_alt_fn]. unfold fn_wrap.
  destruct (cmb_alt_fn pre c) as [[r |] | |]; reflexivity.
Qed.

Lemma alt_single (X : combinator) (c : Cursor) :
  cmb_alt_fn [X] c = X c.
Proof.
  simpl. destruct (X c) as [[r |] | |]; reflexivity.
Qed.

Lemma operator_bar_fold (Xs : list combinator) :
  forall (P : list combinator) (A : combinator),
    (forall c, A c = cmb_alt_fn P c) ->
    forall c, fold_left (@operator_bar Token Cursor) Xs A c = cmb_alt_fn (P ++ Xs) c.
Proof.
  induction Xs as [| X Xs IH]; intros P A HA c; simpl.
  - rewrite app_nil_r. apply HA.
  - replace (P ++ X :: Xs) with ((P ++ [X]) ++ Xs)
      by (rewrite <- app_assoc; reflexivity).
    apply IH. intro c0.
    unfold operator_bar, cmb_alt, fn_wrap.
    rewrite alt_app. cbn [cmb_alt_fn]. rewrite HA.
    destruct (cmb_alt_fn P c0) as [[r |] | |]; reflexivity.
Qed.

(** X11: an ordered choice standing as an alternative of an ordered choice
    can be replaced by its own alternatives, wherever it stands: the two
    choices end the same way at every cursor, whatever the alternatives
    are. *)
Theorem cmb_alt_splice (A B : combinator) (pre Xs post : list combinator)
        (c : Cursor) :
  cmb_alt (cmb_alt A Xs) post c = cmb_alt A (Xs ++ post) c /\
  cmb_alt A (pre ++ cmb_alt B Xs :: post) c
  = cmb_alt A (pre ++ B :: Xs ++ post) c.
Proof.
  split.
  - change (cmb_alt_fn ([] ++ fn_wrap (cmb_alt_fn (A :: Xs)) :: post) c
            = cmb_alt_fn ([] ++ (A :: Xs) ++ post) c).
    apply alt_splice.
  - change (cmb_alt_fn ((A :: pre) ++ fn_wrap (cmb_alt_fn (B :: Xs)) :: post) c
            = cmb_alt_fn ((A :: pre) ++ (B :: Xs) ++ post) c).
    apply alt_splice.
Qed.

(** X12: a chain [x0 | x1 | ... | xn], which C++ groups to the left, ends at
    every cursor as the one ordered choice of [x0, x1, ..., xn]. *)
Theorem operator_bar_chain (X0 : combinator) (Xs : list combinator) (c : Cursor) :
  fold_left (@operator_bar Token Cursor) Xs X0 c = cmb_alt X0 Xs c.
Proof.
  unfold cmb_alt, fn_wrap.
  apply (@operator_bar_fold Xs [X0] X0).
  intro c0. symmetry. apply alt_single.
Qed.

(** X13: alternatives that cannot matter.  An alternative that fails at the
    cursor can be left out, wherever it stands; and the alternatives after one
    that does not fail at the cursor can all be left out. *)
Theorem cmb_alt_fn_dead_alternatives (pre post : list combinator)
        (Y : combinator) (c : Cursor) :
  (Y c = Returns None ->
   cmb_alt_fn (pre ++ Y :: post) c = cmb_alt_fn (pre ++ post) c) /\
  (Y c <> Returns None ->
   cmb_alt_fn (pre ++ Y :: post) c = cmb_alt_fn (pre ++ [Y]) c).
Proof.
  split; intro HY.
  - rewrite !alt_app. cbn [cmb_alt_fn]. rewrite HY. reflexivity.
  - rewrite !alt_app. cbn [cmb_alt_fn].
    destruct (Y c) as [[r |] | |]; cbn [bind]; try reflexivity.
    contradiction.
Qed.

(** ** Repetition *)

Lemma rep_run_end (X : combinator) (c : Cursor) (vs : list value) (c' : Cursor) :
  rep_run X c vs c' -> X c' = Returns None.
Proof.
  induction 1; assumption.
Qed.

Lemma rep_returns (X : combinator) (fuel : nat) (c : Cursor) (r : result_type) :
  cmb_rep fuel X c = Returns r ->
  exists vs c', r = Some (Coll vs, c') /\ rep_run X c vs c' /\ length vs < fuel.
Proof.
  unfold cmb_rep, fn_wrap, cmb_rep_fn. intro H.
  exact (rep_loop_inv _ _ _ _ H).
Qed.

Lemma rep_of_run (X : combinator) (fuel : nat) (c : Cursor) (vs : list value)
      (c' : Cursor) :
  rep_run X c vs c' -> length vs < fuel ->
  cmb_rep fuel X c = Returns (Some (Coll vs, c')).
Proof.
  unfold cmb_rep, fn_wrap, cmb_rep_fn. intros Hrun Hlen.
  exact (rep_loop_run Hrun [] Hlen).
Qed.

Lemma rep1_of_empty (X : combinator) (fuel : nat) (c c' : Cursor) :
  cmb_rep fuel X c = Returns (Some (Coll [], c')) ->
  cmb_rep1 fuel X c = Returns None.
Proof.
  unfold cmb_rep1, cmb_rep, fn_wrap, cmb_rep1_fn. intro H. rewrite H. reflexivity.
Qed.

Lemma rep1_of_rep (X : combinator) (fuel : nat) (c : Cursor) (v : value)
      (vs : list value) (c' : Cursor) :
  cmb_rep fuel X c = Returns (Some (Coll (v :: vs), c')) ->
  cmb_rep1 fuel X c = Returns (Some (Coll (v :: vs), c')).
Proof.
  unfold cmb_rep1, cmb_rep, fn_wrap, cmb_rep1_fn. intro H. rewrite H. reflexivity.
Qed.

Lemma rep1_returns (X : combinator) (fuel : nat) (c : Cursor) (r : result_type) :
  cmb_rep1 fuel X c = Returns r ->
  r = None /\ X c = Returns None \/
  exists v vs c',
    r = Some (Coll (v :: vs), c') /\ rep_run X c (v :: vs) c' /\
    S (length vs) < fuel.
Proof.
  unfold cmb_rep1, fn_wrap, cmb_rep1_fn. intro H.
  apply bind_returns in H. destruct H as [r0 [Hrep Hr]].
  destruct (@rep_returns X fuel c r0 Hrep) as [vs [c' [E [Hrun Hlen]]]].
  subst r0. destruct vs as [| v vs]; simpl in Hr.
  - injection Hr as Hr. subst r. left. split; [reflexivity |].
    inversion Hrun; subst. assumption.
  - injection Hr as Hr. subst r. right. exists v, vs, c'.
    repeat split; assumption.
Qed.

Lemma rep_loop_never_fails (X : combinator) :
  never_fails X ->
  forall fuel acc c r, rep_loop fuel X acc c <> Returns r.
Proof.
  intros HX fuel acc c r H.
  destruct (rep_loop_inv _ _ _ _ H) as [vs [c' [_ [Hrun _]]]].
  exact (HX c' (rep_run_end Hrun)).
Qed.

(** X14: the repetition is greedy.  Whatever [cmb_rep_fn] returns is a
    collection with a cursor at which the repeated combinator fails; so a
    second repetition from that cursor collects nothing, the repetition that
    wants one element fails there, and the sequence of the repetition and the
    repeated combinator itself succeeds at no cursor. *)
Theorem cmb_rep_fn_greedy (X : combinator) (c : Cursor) :
  (forall fuel r, cmb_rep fuel X c = Returns r ->
     exists vs c',
       r = Some (Coll vs, c') /\
       X c' = Returns None /\
       (forall fuel', cmb_rep (S fuel') X c' = Returns (Some (Coll [], c'))) /\
       (forall fuel', cmb_rep1 (S fuel') X c' = Returns None)) /\
  (forall fuel r, cmb_seq [cmb_rep fuel X; X] c <> Returns (Some r)).
Proof.
  split.
  - intros fuel r H.
    destruct (rep_returns _ _ _ H) as [vs [c' [E [Hrun _]]]].
    pose proof (rep_run_end Hrun) as Hend.
    exists vs, c'. split; [exact E | split; [exact Hend | split]].
    + intro fuel'. apply rep_of_run; [constructor; exact Hend | simpl; lia].
    + intro fuel'. apply (@rep1_of_empty X (S fuel') c' c').
      apply rep_of_run; [constructor; exact Hend | simpl; lia].
  - intros fuel r H. unfold cmb_seq, fn_wrap in H. cbn [cmb_seq_fn] in H.
    destruct (cmb_rep fuel X c) as [[[v c1] |] | |] eqn:Hrep; cbn [bind] in H;
      try discriminate.
    destruct (rep_returns _ _ _ Hrep) as [vs [c' [E [Hrun _]]]].
    injection E as _ Hc. subst c1.
    rewrite (rep_run_end Hrun) in H. discriminate.
Qed.

(** X15: one or more is one followed by zero or more.  Where the repeated
    combinator fails, [cmb_rep_fn] returns an empty collection at the cursor
    it was given and [cmb_rep1_fn] fails.  Where it succeeds and the
    repetition from the cursor it returns gives a collection, both repetitions
    give that collection with the first value in front.  And every success of
    [cmb_rep1_fn] is of that kind. *)
Theorem cmb_rep1_fn_unfold (X : combinator) (c : Cursor) :
  (X c = Returns None ->
   forall fuel,
     cmb_rep (S fuel) X c = Returns (Some (Coll [], c)) /\
     cmb_rep1 (S fuel) X c = Returns None) /\
  (forall v c1 fuel vs c',
     X c = Returns (Some (v, c1)) ->
     cmb_rep fuel X c1 = Returns (Some (Coll vs, c')) ->
     cmb_rep (S fuel) X c = Returns (Some (Coll (v :: vs), c')) /\
     cmb_rep1 (S fuel) X c = Returns (Some (Coll (v :: vs), c'))) /\
  (forall fuel d c',
     cmb_rep1 fuel X c = Returns (Some (d, c')) ->
     exists v c1 vs,
       d = Coll (v :: vs) /\
       X c = Returns (Some (v, c1)) /\
       cmb_rep (length vs + 1) X c1 = Returns (Some (Coll vs, c'))).
Proof.
  split; [| split].
  - intros HX fuel.
    assert (R : cmb_rep (S fuel) X c = Returns (Some (Coll [], c)))
      by (apply rep_of_run; [constructor; exact HX | simpl; lia]).
    split; [exact R | exact (rep1_of_empty _ _ _ R)].
  - intros v c1 fuel vs c' HX Hrep.
    destruct (rep_returns _ _ _ Hrep) as [ws [d [E [Hrun Hlen]]]].
    injection E as Hvs Hd. subst ws d.
    assert (R : cmb_rep (S fuel) X c = Returns (Some (Coll (v :: vs), c'))).
    { apply rep_of_run; [econstructor; eassumption | simpl; lia]. }
    split; [exact R | exact (rep1_of_rep _ _ _ R)].
  - intros fuel d c' H.
    destruct (rep1_returns _ _ _ H) as [[E _] | [v [vs [c0 [E [Hrun _]]]]]];
      [discriminate |].
    injection E as Hd Hc. subst d c0.
    inversion Hrun as [| ? ? c1 ? ? HX Hrun1]; subst.
    exists v, c1, vs. split; [reflexivity | split; [exact HX |]].
    apply rep_of_run; [exact Hrun1 | lia].
Qed.

(** X16: the repetition of a combinator that never returns the empty
    optional never returns: the loop of [cmb_rep_fn] leaves only through the
    failure of the repeated combinator. *)
Theorem cmb_rep_fn_needs_failure (X : combinator) :
  never_fails X ->
  forall fuel c r,
    cmb_rep fuel X c <> Returns r /\ cmb_rep1 fuel X c <> Returns r.
Proof.
  intros HX fuel c r. split.
  - apply rep_loop_never_fails. exact HX.
  - intro H. unfold cmb_rep1, fn_wrap, cmb_rep1_fn in H.
    apply bind_returns in H. destruct H as [r0 [Hrep _]].
    exact (rep_loop_never_fails HX _ _ _ Hrep).
Qed.

Lemma cmb_one_never_fails (Item : Type) (deref : Cursor -> option Item)
      (next : Cursor -> Cursor) (token_data : Item -> value) :
  never_fails (cmb_one deref next token_data).
Proof.
  intros c. unfold cmb_one, fn_wrap, cmb_one_fn.
  destruct (deref c); discriminate.
Qed.

Lemma cmb_opt_never_fails (X : combinator) : never_fails (cmb_opt X).
Proof.
  intros c. unfold cmb_opt, fn_wrap, cmb_opt_fn.
  destruct (X c) as [[[v c'] |] | |]; discriminate.
Qed.

Lemma cmb_rep_never_fails (fuel : nat) (X : combinator) : never_fails (cmb_rep fuel X).
Proof.
  intros c H. destruct (rep_returns _ _ _ H) as [vs [c' [E _]]]. discriminate.
Qed.

(** X17: [cmb_succ], [cmb_one], the optional written [~x] and the repetition
    never return the empty optional, so an alternative after one of them is
    never tried, and the repetition of one of them never returns. *)
Theorem never_failing_combinators (Item : Type) (deref : Cursor -> option Item)
        (next : Cursor -> Cursor) (token_data : Item -> value)
        (X : combinator) (fuel : nat) :
  (never_fails (@cmb_succ Token Cursor) /\
   never_fails (cmb_one deref next token_data) /\
   never_fails (operator_tilde X) /\
   never_fails (cmb_rep fuel X)) /\
  (forall Rest c,
     cmb_alt cmb_succ Rest c = cmb_succ c /\
     cmb_alt (cmb_one deref next token_data) Rest c
     = cmb_one deref next token_data c /\
     cmb_alt (operator_tilde X) Rest c = operator_tilde X c /\
     cmb_alt (cmb_rep fuel X) Rest c = cmb_rep fuel X c) /\
  (forall fuel' c r,
     cmb_rep fuel' cmb_succ c <> Returns r /\
     cmb_rep fuel' (cmb_one deref next token_data) c <> Returns r /\
     cmb_rep fuel' (operator_tilde X) c <> Returns r /\
     cmb_rep fuel' (cmb_rep fuel X) c <> Returns r).
Proof.
  assert (Hsucc : never_fails (@cmb_succ Token Cursor)) by (intros c; discriminate).
  pose proof (cmb_one_never_fails deref next token_data) as Hone.
  pose proof (cmb_opt_never_fails X) as Hopt.
  pose proof (cmb_rep_never_fails fuel X) as Hrep.
  assert (Halt : forall (N : combinator) Rest c,
             never_fails N -> cmb_alt N Rest c = N c).
  { intros N Rest c HN. unfold cmb_alt, fn_wrap. cbn [cmb_alt_fn].
    specialize (HN c). destruct (N c) as [[r |] | |]; try reflexivity.
    contradiction. }
  split; [| split].
  - repeat split; assumption.
  - intros Rest c. repeat split; apply Halt; assumption.
  - intros fuel' c r.
    repeat split; apply rep_loop_never_fails; assumption.
Qed.

(** ** Cursors under composition *)

Section Distance.

Variable dist : Cursor -> nat.

Lemma seq_run_non_retreating (Xs : list combinator) (c : Cursor)
      (vs : list value) (c' : Cursor) :
  seq_run Xs c vs c' ->
  Forall (non_retreating dist) Xs ->
  dist c' <= dist c.
Proof.
  induction 1 as [c | X Xs c v c1 vs c' HX Hrun IH]; intro H.
  - lia.
  - inversion H as [| ? ? H1 H2]; subst.
    pose proof (H1 _ _ _ HX). pose proof (IH H2). lia.
Qed.

Lemma seq_run_advancing (Xs : list combinator) (c : Cursor)
      (vs : list value) (c' : Cursor) :
  seq_run Xs c vs c' ->
  Forall (non_retreating dist) Xs ->
  Exists (advancing dist) Xs ->
  dist c' < dist c.
Proof.
  induction 1 as [c | X Xs c v c1 vs c' HX Hrun IH]; intros H E.
  - inversion E.
  - inversion H as [| ? ? H1 H2]; subst.
    inversion E as [? ? EX | ? ? EXs]; subst.
    + pose proof (EX _ _ _ HX).
      pose proof (seq_run_non_retreating Hrun H2). lia.
    + pose proof (H1 _ _ _ HX). pose proof (IH H2 EXs). lia.
Qed.

Lemma rep_run_non_retreating (X : combinator) (c : Cursor)
      (vs : list value) (c' : Cursor) :
  rep_run X c vs c' -> non_retreating dist X -> dist c' <= dist c.
Proof.
  induction 1 as [c HX | c v c1 vs c' HX Hrun IH]; intro H.
  - lia.
  - pose proof (H _ _ _ HX). pose proof (IH H). lia.
Qed.

(** X18: composition keeps cursors from moving back.  When the combinators
    it is built from never return a cursor further from the end of the input
    than the one they were given, neither does the optional, the sequence,
    the ordered choice, either repetition or the map; and [cmb_succ] never
    does. *)
Theorem composites_non_retreating (X : combinator) (Xs : list combinator) :
  non_retreating dist (@cmb_succ Token Cursor) /\
  (non_retreating dist X -> non_retreating dist (cmb_opt X)) /\
  (Forall (non_retreating dist) Xs -> non_retreating dist (cmb_seq Xs)) /\
  (non_retreating dist X -> Forall (non_retreating dist) Xs ->
   non_retreating dist (cmb_alt X Xs)) /\
  (non_retreating dist X ->
   forall fuel,
     non_retreating dist (cmb_rep fuel X) /\
     non_retreating dist (cmb_rep1 fuel X)) /\
  (non_retreating dist X -> forall m, non_retreating dist (cmb_map X m)).
Proof.
  split; [| split; [| split; [| split; [| split]]]].
  - intros c v c' H. injection H as _ Hc. subst. lia.
  - intros HX c v c' H. unfold cmb_opt, fn_wrap, cmb_opt_fn in H.
    destruct (X c) as [[[w c1] |] | |] eqn:E; simpl in H; try discriminate.
    + injection H as _ Hc. subst. exact (HX _ _ _ E).
    + injection H as _ Hc. subst. lia.
  - intros HXs c v c' H. unfold cmb_seq, fn_wrap in H.
    destruct (seq_some_inv _ _ H) as [vs [Hrun _]].
    exact (seq_run_non_retreating Hrun HXs).
  - intros HX HXs c v c' H. unfold cmb_alt, fn_wrap in H.
    destruct (alt_some_inv _ _ H) as [pre [Y [post [E [_ HY]]]]].
    assert (HIn : In Y (X :: Xs)) by (rewrite E; apply in_elt).
    assert (HF : Forall (non_retreating dist) (X :: Xs)) by (constructor; assumption).
    rewrite Forall_forall in HF. exact (HF Y HIn _ _ _ HY).
  - intros HX fuel. split; intros c v c' H.
    + destruct (rep_returns _ _ _ H) as [vs [d [E [Hrun _]]]].
      injection E as _ Hc. subst d. exact (rep_run_non_retreating Hrun HX).
    + destruct (rep1_returns _ _ _ H) as [[E _] | [w [vs [d [E [Hrun _]]]]]];
        [discriminate |].
      injection E as _ Hc. subst d. exact (rep_run_non_retreating Hrun HX).
  - intros HX m c w c' H. unfold cmb_map, fn_wrap, cmb_map_fn in H.
    destruct m as [f | f]; unfold cmb_map_impl, cmb_map_impl_expected in H;
      destruct (X c) as [[[v c1] |] | |] eqn:E; simpl in H; try discriminate;
      destruct (f (as_tuple v)) as [z | |]; simpl in H; try discriminate.
    + injection H as _ Hc. subst. exact (HX _ _ _ E).
    + destruct z; try discriminate. injection H as _ Hc. subst.
      exact (HX _ _ _ E).
Qed.

(** X19: composition keeps cursors moving forward.  The sequence returns a
    cursor strictly nearer to the end of the input when none of its members
    moves back and one of them always moves forward; the ordered choice, the
    repetition that wants one element and the map do when the combinators
    they are built from always move forward; and [cmb_one] does when
    [std::next] of a cursor that can be dereferenced is nearer to the end. *)
Theorem composites_advancing (X : combinator) (Xs : list combinator) :
  (Forall (non_retreating dist) Xs -> Exists (advancing dist) Xs ->
   advancing dist (cmb_seq Xs)) /\
  (advancing dist X -> Forall (advancing dist) Xs ->
   advancing dist (cmb_alt X Xs)) /\
  (advancing dist X -> forall fuel, advancing dist (cmb_rep1 fuel X)) /\
  (advancing dist X -> forall m, advancing dist (cmb_map X m)) /\
  (forall (Item : Type) (deref : Cursor -> option Item) (next : Cursor -> Cursor)
          (token_data : Item -> value),
     (forall c tok, deref c = Some tok -> dist (next c) < dist c) ->
     advancing dist (cmb_one deref next token_data)).
Proof.
  split; [| split; [| split; [| split]]].
  - intros HXs EXs c v c' H. unfold cmb_seq, fn_wrap in H.
    destruct (seq_some_inv _ _ H) as [vs [Hrun _]].
    exact (seq_run_advancing Hrun HXs EXs).
  - intros HX HXs c v c' H. unfold cmb_alt, fn_wrap in H.
    destruct (alt_some_inv _ _ H) as [pre [Y [post [E [_ HY]]]]].
    assert (HIn : In Y (X :: Xs)) by (rewrite E; apply in_elt).
    assert (HF : Forall (advancing dist) (X :: Xs)) by (constructor; assumption).
    rewrite Forall_forall in HF. exact (HF Y HIn _ _ _ HY).
  - intros HX fuel c v c' H.
    destruct (rep1_returns _ _ _ H) as [[E _] | [w [vs [d [E [Hrun _]]]]]];
      [discriminate |].
    injection E as _ Hc. subst d.
    inversion Hrun as [| ? ? c1 ? ? HX1 Hrun1]; subst.
    pose proof (HX _ _ _ HX1).
    assert (HNR : non_retreating dist X).
    { intros a b a' Ha. pose proof (HX _ _ _ Ha). lia. }
    pose proof (rep_run_non_retreating Hrun1 HNR). lia.
  - intros HX m c w c' H. unfold cmb_map, fn_wrap, cmb_map_fn in H.
    destruct m as [f | f]; unfold cmb_map_impl, cmb_map_impl_expected in H;
      destruct (X c) as [[[v c1] |] | |] eqn:E; simpl in H; try discriminate;
      destruct (f (as_tuple v)) as [z | |]; simpl in H; try discriminate.
    + injection H as _ Hc. subst. exact (HX _ _ _ E).
    + destruct z; try discriminate. injection H as _ Hc. subst.
      exact (HX _ _ _ E).
  - intros Item deref next token_data Hnext c v c' H.
    unfold cmb_one, fn_wrap, cmb_one_fn in H.
    destruct (deref c) as [tok |] eqn:E; [| discriminate].
    injection H as _ Hc. subst. exact (Hnext _ _ E).
Qed.

End Distance.

(** ** Tokens in a row *)

Lemma seq_members_ones (Item : Type) (deref : Cursor -> option Item)
      (next : Cursor -> Cursor) (token_data : Item -> value) (n : nat) :
  forall c,
    seq_members (repeat (cmb_one deref next token_data) n) c
    = match read_tokens deref next n c with
      | Some toks => Returns (Some (map token_data toks, Nat.iter n next c))
      | None => Undefined
      end.
Proof.
  induction n as [| n IH]; intro c.
  - reflexivity.
  - cbn [repeat seq_members read_tokens]. unfold cmb_one at 1, fn_wrap, cmb_one_fn.
    destruct (deref c) as [tok |]; cbn [bind]; [| reflexivity].
    unfold make_result. rewrite IH.
    destruct (read_tokens deref next n (next c)) as [toks |]; cbn [bind];
      [| reflexivity].
    rewrite Nat.iter_succ_r. reflexivity.
Qed.

Lemma flat_data_no_tuples (vs : list value) :
  Forall (fun v => forall ts, v <> Tuple ts) vs ->
  flat_data vs = unwrap_tuple (Tuple vs).
Proof.
  intro H. unfold flat_data. f_equal. f_equal.
  induction H as [| v vs Hv Hvs IH]; simpl; [reflexivity |].
  rewrite IH. destruct v as [t | ts | o | es]; try reflexivity.
  exfalso. exact (Hv ts eq_refl).
Qed.

(** X20: the sequence of [n] times [cmb_one], when the next [n] tokens can
    all be dereferenced, returns the cursor [n] steps on with the data that
    [cmb_seq_fn] builds from the tokens.  That data is the components of the
    tokens side by side as one tuple, a single component bare, when no token
    after the first is a one-component tuple that holds a tuple: tokens that
    are tuples are flattened.  For tokens that are no tuples it is the tuple
    of the tokens themselves.  When one of the [n] tokens cannot be
    dereferenced the sequence has no defined result. *)
Theorem cmb_seq_fn_of_ones (Item : Type) (deref : Cursor -> option Item)
        (next : Cursor -> Cursor) (token_data : Item -> value)
        (n : nat) (c : Cursor) :
  (forall toks, read_tokens deref next n c = Some toks ->
     cmb_seq (repeat (cmb_one deref next token_data) n) c
     = Returns (Some (seq_data (map token_data toks), Nat.iter n next c))) /\
  (forall toks, read_tokens deref next n c = Some toks ->
     Forall (fun tok => tuple_of_tuple (token_data tok) = false) (tl toks) ->
     cmb_seq (repeat (cmb_one deref next token_data) n) c
     = Returns (Some (flat_data (map token_data toks), Nat.iter n next c))) /\
  (forall toks, read_tokens deref next n c = Some toks ->
     (forall tok ts, token_data tok <> Tuple ts) ->
     cmb_seq (repeat (cmb_one deref next token_data) n) c
     = Returns (Some (unwrap_tuple (Tuple (map token_data toks)),
                      Nat.iter n next c))) /\
  (read_tokens deref next n c = None ->
   cmb_seq (repeat (cmb_one deref next token_data) n) c = Undefined).
Proof.
  unfold cmb_seq, fn_wrap. rewrite cmb_seq_fn_members, seq_members_ones.
  split; [| split; [| split]].
  - intros toks H. rewrite H. reflexivity.
  - intros toks H Hplain. rewrite H. cbn [bind].
    rewrite seq_data_flat; [reflexivity |].
    destruct toks as [| tok toks]; simpl; [constructor |].
    simpl in Hplain. apply Forall_forall. intros v Hv.
    apply in_map_iff in Hv. destruct Hv as [x [Hx Hin]]. subst v.
    rewrite Forall_forall in Hplain. exact (Hplain x Hin).
  - intros toks H Hno. rewrite H. cbn [bind].
    rewrite seq_data_flat.
    + rewrite flat_data_no_tuples; [reflexivity |].
      apply Forall_forall. intros v Hv.
      apply in_map_iff in Hv. destruct Hv as [x [Hx _]]. subst v. apply Hno.
    + apply Forall_tl. apply Forall_forall. intros v Hv.
      apply in_map_iff in Hv. destruct Hv as [x [Hx _]]. subst v.
      destruct (token_data x) as [t | ts | o | es] eqn:E; try reflexivity.
      exfalso. exact (Hno x ts E).
  - intro H. rewrite H. reflexivity.
Qed.

End Coverage.

(** * Further properties, on an input held in a container *)

Lemma one_checked_unwrapped (toks : list token) : unwrapped_data (one_checked toks).
Proof.
  intros c v c' t H. apply one_checked_success in H.
  destruct H as [_ [_ [tok Hv]]]. subst v. discriminate.
Qed.

Lemma one_checked_advancing (toks : list token) :
  advancing (distance toks) (one_checked toks).
Proof.
  intros c v c' H. exact (one_checked_progress _ _ H).
Qed.

Lemma one_checked_non_retreating (toks : list token) :
  non_retreating (distance toks) (one_checked toks).
Proof.
  intros c v c' H. pose proof (one_checked_progress _ _ H). lia.
Qed.

Lemma cmb_succ_never_fails : never_fails (@cmb_succ token iterator).
Proof.
  intro c. discriminate.
Qed.


(** X5, witness: the filter of the token 1, twice. *)
Lemma cmb_map_filter_twice_ones :
  cmb_map (cmb_map (one_checked [1; 2]) (Failable (filter_impl is_one)))
          (Failable (filter_impl is_one)) 0
  = cmb_map (one_checked [1; 2])
            (Failable (filter_impl (fun args => andb (is_one args) (is_one args)))) 0.
Proof.
  apply (@cmb_map_filter_twice token iterator (one_checked [1; 2]) is_one is_one 0).
  apply one_checked_unwrapped.
Defined.

(** X8, witness: a sequence of two tokens after a token. *)
Lemma cmb_seq_splice_tokens :
  cmb_seq ([one_checked [7; 8; 9]]
             ++ cmb_seq [one_checked [7; 8; 9]; one_checked [7; 8; 9]] :: []) 0
  = cmb_seq ([one_checked [7; 8; 9]]
               ++ [one_checked [7; 8; 9]; one_checked [7; 8; 9]] ++ []) 0.
Proof.
  apply (@cmb_seq_splice token iterator [one_checked [7; 8; 9]]
           [one_checked [7; 8; 9]; one_checked [7; 8; 9]] [] 0).
  - repeat constructor; apply one_checked_plain.
  - constructor.
Defined.

(** X9, witness: [cmb_succ] between two tokens. *)
Lemma cmb_succ_unit_between :
  cmb_seq ([one [7; 8]] ++ cmb_succ :: [one_checked [7; 8]]) 0
  = cmb_seq ([one [7; 8]] ++ [one_checked [7; 8]]) 0.
Proof.
  apply (proj2 (@cmb_succ_unit token iterator [one [7; 8]] [one_checked [7; 8]] 0)).
  repeat constructor; apply one_checked_plain.
Defined.

(** X10, witness: three tokens chained with [&]. *)
Lemma operator_amp_chain_tokens :
  fold_left (@operator_amp token iterator)
            [one_checked [7; 8; 9]; one_checked [7; 8; 9]] (one_checked [7; 8; 9]) 0
  = cmb_seq [one_checked [7; 8; 9]; one_checked [7; 8; 9]; one_checked [7; 8; 9]] 0.
Proof.
  apply (@operator_amp_chain token iterator (one_checked [7; 8; 9])
           (one_checked [7; 8; 9]) [one_checked [7; 8; 9]] 0).
  repeat constructor; apply one_checked_plain.
Defined.

(** X13, witness: a failing alternative before a token, and an alternative
    after a token. *)
Lemma cmb_alt_fn_dead_alternatives_token :
  cmb_alt_fn ([never] ++ never :: [one [5]]) 0 = cmb_alt_fn ([never] ++ [one [5]]) 0 /\
  cmb_alt_fn ([never] ++ one [5] :: [never]) 0 = cmb_alt_fn ([never] ++ [one [5]]) 0.
Proof.
  split.
  - apply (proj1 (@cmb_alt_fn_dead_alternatives token iterator
                    [never] [one [5]] never 0)).
    reflexivity.
  - apply (proj2 (@cmb_alt_fn_dead_alternatives token iterator
                    [never] [never] (one [5]) 0)).
    discriminate.
Defined.

(** X14, witness: after the repetition over two tokens the one-token
    function fails. *)
Lemma cmb_rep_fn_greedy_two_tokens :
  exists vs c',
    Some (Coll [Tok 7; Tok 8], 2) = Some (Coll vs, c') /\
    one_checked [7; 8] c' = Returns None /\
    (forall fuel',
       cmb_rep (S fuel') (one_checked [7; 8]) c' = Returns (Some (Coll [], c'))) /\
    (forall fuel', cmb_rep1 (S fuel') (one_checked [7; 8]) c' = Returns None).
Proof.
  apply (proj1 (@cmb_rep_fn_greedy token iterator (one_checked [7; 8]) 0) 3).
  reflexivity.
Defined.

(** X15, witness: one token and then the repetition over the other. *)
Lemma cmb_rep1_fn_unfold_two_tokens :
  cmb_rep 3 (one_checked [7; 8]) 0 = Returns (Some (Coll [Tok 7; Tok 8], 2)) /\
  cmb_rep1 3 (one_checked [7; 8]) 0 = Returns (Some (Coll [Tok 7; Tok 8], 2)).
Proof.
  apply (proj1 (proj2 (@cmb_rep1_fn_unfold token iterator (one_checked [7; 8]) 0))
               (Tok 7) 1 2 [Tok 8] 2).
  - reflexivity.
  - reflexivity.
Defined.

(** X16, witness: the repetition of [cmb_succ]. *)
Lemma cmb_rep_fn_of_cmb_succ :
  cmb_rep 5 (@cmb_succ token iterator) 0 <> Returns None /\
  cmb_rep1 5 (@cmb_succ token iterator) 0 <> Returns None.
Proof.
  apply (@cmb_rep_fn_needs_failure token iterator cmb_succ cmb_succ_never_fails
           5 0 None).
Defined.

(** X18, witness: the optional of the one-token function. *)
Lemma composites_non_retreating_optional :
  non_retreating (distance [7; 8; 9]) (cmb_opt (one_checked [7; 8; 9])).
Proof.
  apply (proj1 (proj2 (@composites_non_retreating token iterator
                         (distance [7; 8; 9]) (one_checked [7; 8; 9]) []))).
  apply one_checked_non_retreating.
Defined.

(** X19, witness: two tokens one after the other. *)
Lemma composites_advancing_sequence :
  advancing (distance [7; 8; 9])
            (cmb_seq [one_checked [7; 8; 9]; one_checked [7; 8; 9]]).
Proof.
  apply (proj1 (@composites_advancing token iterator (distance [7; 8; 9])
                  (one_checked [7; 8; 9])
                  [one_checked [7; 8; 9]; one_checked [7; 8; 9]])).
  - repeat constructor; apply one_checked_non_retreating.
  - apply Exists_cons_hd. apply one_checked_advancing.
Defined.

(** X20, witness: three tokens of three, and two tokens that are pairs. *)
Lemma cmb_seq_fn_of_three_ones :
  (read_tokens (deref [7; 8; 9]) next 3 0 = Some [7; 8; 9] /\
   cmb_seq (repeat (one [7; 8; 9]) 3) 0
   = Returns (Some (Tuple [Tok 7; Tok 8; Tok 9], 3))) /\
  (read_tokens (pair_deref [(1, 2); (3, 4)]) next 2 0 = Some [(1, 2); (3, 4)] /\
   cmb_seq (repeat (pair_one [(1, 2); (3, 4)]) 2) 0
   = Returns (Some (Tuple [Tok 1; Tok 2; Tok 3; Tok 4], 2))).
Proof.
  split; (split; [reflexivity |]).
  - apply (proj1 (proj2 (proj2 (@cmb_seq_fn_of_ones token iterator token
                                  (deref [7; 8; 9]) next (@Tok token) 3 0)))
                 [7; 8; 9]).
    + reflexivity.
    + intros tok ts H. discriminate H.
  - apply (proj1 (proj2 (@cmb_seq_fn_of_ones token iterator pair_token
                           (pair_deref [(1, 2); (3, 4)]) next pair_data 2 0))
                 [(1, 2); (3, 4)]).
    + reflexivity.
    + repeat constructor.
Defined.

(** C10, counterexample: on three tokens [cmb_one] moves strictly nearer to
    the end with every success, and yet its repetition returns no result,
    however long it runs: after the last token it dereferences the end. *)
Lemma cmb_rep_fn_of_one_no_result :
  (forall c v c', one [7; 8; 9] c = Returns (Some (v, c')) ->
     distance [7; 8; 9] c' < distance [7; 8; 9] c) /\
  cmb_rep 4 (one [7; 8; 9]) 0 = Undefined /\
  (forall fuel r, cmb_rep fuel (one [7; 8; 9]) 0 <> Returns r).
Proof.
  split; [| split].
  - intros c v c'. unfold one, cmb_one, fn_wrap, cmb_one_fn, deref, distance, end_.
    destruct (nth_error _ c) as [tok |] eqn:E; intro H; [| discriminate H].
    unfold make_result in H. injection H as _ Hc. subst c'.
    assert (Hlt : c < 3).
    { destruct c as [| [| [| c]]]; try lia. destruct c; discriminate E. }
    unfold next. cbn [length]. lia.
  - reflexivity.
  - intros fuel r. unfold cmb_rep, fn_wrap, cmb_rep_fn.
    apply rep_loop_never_fails. apply cmb_one_never_fails.
Qed.
